(** * Tower-defence simulation ([week2/tower_defense_game.py])

    A shallow embedding of the three classes of the game, [Enemy], [Tower]
    and [Game], and the properties of the turn engine.

    - Python integers are unbounded: coordinates, life, damage, ranges and
      the turn counter are [Z].  The game builds every unit from integer
      literals, so positions stay integers.
    - [Enemy] objects are mutated in place and reached through the list
      [Game.enemies]; they live in a heap [gmap loc Enemy.t] and the list
      holds their locations, so that aliasing (one object listed twice) is
      part of the model.  [Tower] objects are never mutated and are plain
      values.
    - Every [print] emits one structured [line]; a method returns the lines
      it printed next to its value and the new heap.  The text layout of a
      line is not modelled. *)

From Stdlib Require Import ZArith String List Lia Reals Lra.
From stdpp Require Import base option list gmap.

Local Open Scope Z_scope.

(** ** Enemy *)

Module Enemy.

Record t : Type := Build {
  name  : string;
  x     : Z;
  y     : Z;
  dx    : Z;
  dy    : Z;
  life  : Z;
  alive : bool
}.

(** [life=10] in the signature of [__init__]. *)
Definition default_life : Z := 10.

(** [Enemy.__init__]: the alive flag is set to [True] whatever [life] is. *)
Definition init (name : string) (x y dx dy life : Z) : t :=
  {| name := name; x := x; y := y; dx := dx; dy := dy;
     life := life; alive := true |}.

(** [Enemy.move] *)
Definition move (self : t) : t :=
  if alive self then
    {| name := name self;
       x := x self + dx self;
       y := y self + dy self;
       dx := dx self; dy := dy self;
       life := life self; alive := alive self |}
  else self.

(** [Enemy.take_damage] *)
Definition take_damage (damage : Z) (self : t) : t :=
  if alive self then
    let life' := life self - damage in
    if life' <=? 0 then
      {| name := name self; x := x self; y := y self;
         dx := dx self; dy := dy self;
         life := 0; alive := false |}
    else
      {| name := name self; x := x self; y := y self;
         dx := dx self; dy := dy self;
         life := life'; alive := alive self |}
  else self.

(** [Enemy.is_alive] *)
Definition is_alive (self : t) : bool := alive self.

End Enemy.

(** ** Heap, output and the monad of method bodies *)

(** A reference to an [Enemy] object. *)
Definition loc : Type := nat.

(** One constructor for each [print] of the program, holding the values
    that the format string interpolates. *)
Inductive line : Type :=
  | L_turn (turn : Z)                                  (* "=== 回合 n ===" *)
  | L_move_phase                                       (* "1. ..." *)
  | L_moved (name : string) (old_x old_y x y : Z)
  | L_not_moved (name : string)
  | L_attack_phase                                     (* "2. ..." *)
  | L_attack (tower : string) (attacked : list string) (power : Z)
  | L_no_target (tower : string)
  | L_status_phase                                     (* "3. ..." *)
  | L_status (name : string) (x y life : Z) (alive : bool)
  | L_start                                            (* run_game, first print *)
  | L_initial                                          (* run_game, second print *)
  | L_enemy (name : string) (x y life : Z)             (* Enemy.__str__ *)
  | L_rule_top | L_results | L_rule                    (* print_results, header *)
  | L_result (name : string) (x y life : Z) (alive : bool).

(** A method body reads and writes the heap of enemies and appends to the
    standard output; it returns its value, the new heap and what it
    printed. *)
Definition M (A : Type) : Type := gmap loc Enemy.t -> A * gmap loc Enemy.t * list line.

Definition ret {A} (a : A) : M A := fun h => (a, h, []).

Definition bind {A B} (m : M A) (k : A -> M B) : M B :=
  fun h =>
    let '(a, h1, out1) := m h in
    let '(b, h2, out2) := k a h1 in
    (b, h2, out1 ++ out2).

#[global] Instance M_ret : MRet M := @ret.
#[global] Instance M_bind : MBind M := fun A B k m => bind m k.

(** The three components of the result of running a method body. *)
Definition value_of {A} (r : A * gmap loc Enemy.t * list line) : A := r.1.1.
Definition heap_of {A} (r : A * gmap loc Enemy.t * list line) : gmap loc Enemy.t := r.1.2.
Definition output_of {A} (r : A * gmap loc Enemy.t * list line) : list line := r.2.

Definition print (l : line) : M unit := fun h => (tt, h, [l]).

(** Write back the fields of the object at [l]. *)
Definition store (l : loc) (e : Enemy.t) : M unit := fun h => (tt, <[l := e]> h, []).

(** A new object, at a location the heap does not use yet. *)
Definition alloc (e : Enemy.t) : M loc :=
  fun h => let l := fresh (dom h) in (l, <[l := e]> h, []).

(** [for x in xs: body], with the local variables of the loop in [s]. *)
Fixpoint for_each {A S} (xs : list A) (body : A -> S -> M S) (s : S) : M S :=
  match xs with
  | [] => ret s
  | x :: xs' => s' ← body x s; for_each xs' body s'
  end.

(** [for enemy in enemies: body]: each iteration sees the object as it is
    when the loop reaches it.  A location without an object is passed
    over; a Python reference always has one. *)
Fixpoint for_enemies {S} (enemies : list loc)
    (body : loc -> Enemy.t -> S -> M S) (s : S) : M S :=
  match enemies with
  | [] => ret s
  | l :: rest => fun h =>
      match h !! l with
      | Some enemy => (s' ← body l enemy s; for_enemies rest body s') h
      | None => for_enemies rest body s h
      end
  end.

(** [range(n)]: empty when [n <= 0]. *)
Definition range (n : Z) : list Z := Z.of_nat <$> seq 0 (Z.to_nat n).

(** ** Tower *)

Module Tower.

Record t : Type := Build {
  name         : string;
  x            : Z;
  y            : Z;
  attack_power : Z;
  attack_range : Z
}.

(** The radicand of [distance_to]:
    [(self.x - enemy.x)**2 + (self.y - enemy.y)**2]. *)
Definition distance_sq (self : t) (enemy : Enemy.t) : Z :=
  (x self - Enemy.x enemy) ^ 2 + (y self - Enemy.y enemy) ^ 2.


(** The test [self.distance_to(enemy) <= self.attack_range], decided on
    integers: a square root is at most [r] exactly when [r] is not
    negative and the radicand is at most [r * r]
    (lemma [in_range_distance_to]). *)
Definition in_range (self : t) (enemy : Enemy.t) : bool :=
  (0 <=? attack_range self)
  && (distance_sq self enemy <=? attack_range self * attack_range self).

(** [Tower.can_attack]: [and] evaluates the distance only for an enemy
    that is alive. *)
Definition can_attack (self : t) (enemy : Enemy.t) : bool :=
  if Enemy.is_alive enemy then in_range self enemy else false.

(** [Tower.attack] *)
Definition attack (self : t) (enemies : list loc) : M (list string) :=
  for_enemies enemies (fun l enemy attacked_enemies =>
    if can_attack self enemy then
      store l (Enemy.take_damage (attack_power self) enemy);;
      ret (attacked_enemies ++ [Enemy.name enemy])
    else ret attacked_enemies) [].

End Tower.

(** ** Game *)

Module Game.

Record t : Type := Build {
  current_turn : Z;
  max_turns    : Z;
  enemies      : list loc;
  towers       : list Tower.t
}.

(** The engine of [Game.__init__] for any list of units: the enemies are
    allocated in order, the counter starts at 0. *)
Definition create (defs : list Enemy.t) (towers : list Tower.t) (max_turns : Z) : M t :=
  enemies ← for_each defs (fun d ls => l ← alloc d; ret (ls ++ [l])) [];
  ret {| current_turn := 0; max_turns := max_turns;
         enemies := enemies; towers := towers |}.

(** [Game.__init__] *)
Definition init : M t :=
  create
    [ Enemy.init "E1" (-10) 2 2 (-1) Enemy.default_life;
      Enemy.init "E2" (-8) 0 3 1 Enemy.default_life;
      Enemy.init "E3" (-9) (-1) 3 0 Enemy.default_life ]
    [ Tower.Build "T1" (-3) 2 1 2;
      Tower.Build "T2" (-1) (-2) 1 2;
      Tower.Build "T3" 4 2 1 2;
      Tower.Build "T4" 7 0 1 2;
      Tower.Build "A1" 1 1 2 4;
      Tower.Build "A2" 4 (-3) 2 4 ]
    10.

(** First loop of [run_turn]. *)
Definition move_phase (self : t) : M unit :=
  print L_move_phase;;
  for_enemies (enemies self) (fun l enemy _ =>
    if Enemy.is_alive enemy then
      let old_x := Enemy.x enemy in
      let old_y := Enemy.y enemy in
      let enemy' := Enemy.move enemy in
      store l enemy';;
      print (L_moved (Enemy.name enemy) old_x old_y (Enemy.x enemy') (Enemy.y enemy'))
    else
      print (L_not_moved (Enemy.name enemy))) tt.

(** Second loop of [run_turn]; [if attacked] tests that the list is not
    empty. *)
Definition attack_phase (self : t) : M unit :=
  print L_attack_phase;;
  for_each (towers self) (fun tower _ =>
    attacked ← Tower.attack tower (enemies self);
    match attacked with
    | _ :: _ => print (L_attack (Tower.name tower) attacked (Tower.attack_power tower))
    | [] => print (L_no_target (Tower.name tower))
    end) tt.

(** Third loop of [run_turn]. *)
Definition status_phase (self : t) : M unit :=
  print L_status_phase;;
  for_enemies (enemies self) (fun _ enemy _ =>
    print (L_status (Enemy.name enemy) (Enemy.x enemy) (Enemy.y enemy)
                    (Enemy.life enemy) (Enemy.is_alive enemy))) tt.

(** [Game.run_turn]: no test of [max_turns] anywhere. *)
Definition run_turn (self : t) : M t :=
  let self := {| current_turn := current_turn self + 1;
                 max_turns := max_turns self;
                 enemies := enemies self; towers := towers self |} in
  print (L_turn (current_turn self));;
  move_phase self;;
  attack_phase self;;
  status_phase self;;
  ret self.

(** [Game.print_results] *)
Definition print_results (self : t) : M unit :=
  print L_rule_top;;
  print L_results;;
  print L_rule;;
  for_enemies (enemies self) (fun _ enemy _ =>
    print (L_result (Enemy.name enemy) (Enemy.x enemy) (Enemy.y enemy)
                    (Enemy.life enemy) (Enemy.is_alive enemy))) tt.

(** [Game.run_game] *)
Definition run_game (self : t) : M t :=
  print L_start;;
  print L_initial;;
  for_enemies (enemies self) (fun _ enemy _ =>
    print (L_enemy (Enemy.name enemy) (Enemy.x enemy) (Enemy.y enemy)
                   (Enemy.life enemy))) tt;;
  self ← for_each (range (max_turns self)) (fun _ self => run_turn self) self;
  print_results self;;
  ret self.

End Game.

(** [main] *)
Definition main : M Game.t :=
  game ← Game.init;
  Game.run_game game.


(** ** Vocabulary of the statements *)

(** The states an [Enemy] object can be in: built by the constructor, then
    changed by its two mutating methods only. *)
Inductive reachable : Enemy.t -> Prop :=
  | reachable_init name x y dx dy life :
      reachable (Enemy.init name x y dx dy life)
  | reachable_move e :
      reachable e -> reachable (Enemy.move e)
  | reachable_take_damage damage e :
      reachable e -> reachable (Enemy.take_damage damage e).

(** What the body of the loop of [Tower.attack] does to the enemy it is
    looking at. *)
Definition hit (t : Tower.t) (e : Enemy.t) : Enemy.t :=
  if Tower.can_attack t e then Enemy.take_damage (Tower.attack_power t) e else e.

(** The objects a loop [for enemy in ls] meets, each as it is when the loop
    reaches it, when every iteration leaves [upd enemy] in the place of
    [enemy]. *)
Fixpoint visits (upd : Enemy.t -> Enemy.t) (ls : list loc) (h : gmap loc Enemy.t) : list Enemy.t :=
  match ls with
  | [] => []
  | l :: rest =>
      match h !! l with
      | Some e => e :: visits upd rest (alter upd l h)
      | None => visits upd rest h
      end
  end.

(** Heap after every listed object, in order, has received [move()]. *)
Definition moved (ls : list loc) (h : gmap loc Enemy.t) : gmap loc Enemy.t :=
  foldl (fun h l => alter Enemy.move l h) h ls.

(** Heap after tower [t] has looked at every listed object, in order. *)
Definition volley (t : Tower.t) (ls : list loc) (h : gmap loc Enemy.t) : gmap loc Enemy.t :=
  foldl (fun h l => alter (hit t) l h) h ls.

(** Heap after the towers [ts], in order, have each fired their volley. *)
Definition barrage (ts : list Tower.t) (ls : list loc) (h : gmap loc Enemy.t) : gmap loc Enemy.t :=
  foldl (fun h t => volley t ls h) h ts.

(** The line a tower prints for the list of names [Tower.attack] returned. *)
Definition attack_line (t : Tower.t) (attacked : list string) : line :=
  match attacked with
  | _ :: _ => L_attack (Tower.name t) attacked (Tower.attack_power t)
  | [] => L_no_target (Tower.name t)
  end.

(** The lines the loops of [run_turn], [run_game] and [print_results]
    print for one enemy. *)
Definition move_line (e : Enemy.t) : line :=
  if Enemy.is_alive e then
    L_moved (Enemy.name e) (Enemy.x e) (Enemy.y e)
            (Enemy.x (Enemy.move e)) (Enemy.y (Enemy.move e))
  else L_not_moved (Enemy.name e).

Definition status_line (e : Enemy.t) : line :=
  L_status (Enemy.name e) (Enemy.x e) (Enemy.y e) (Enemy.life e) (Enemy.is_alive e).

Definition enemy_line (e : Enemy.t) : line :=
  L_enemy (Enemy.name e) (Enemy.x e) (Enemy.y e) (Enemy.life e).

Definition result_line (e : Enemy.t) : line :=
  L_result (Enemy.name e) (Enemy.x e) (Enemy.y e) (Enemy.life e) (Enemy.is_alive e).

(** The objects of a list of references, as the heap has them. *)
Definition objects (ls : list loc) (h : gmap loc Enemy.t) : list Enemy.t :=
  omap (fun l => h !! l) ls.

(** The game object after [self.current_turn += 1]. *)
Definition next_turn (self : Game.t) : Game.t :=
  {| Game.current_turn := Game.current_turn self + 1;
     Game.max_turns := Game.max_turns self;
     Game.enemies := Game.enemies self;
     Game.towers := Game.towers self |}.

(** The game object with another limit of turns. *)
Definition with_max_turns (m : Z) (self : Game.t) : Game.t :=
  {| Game.current_turn := Game.current_turn self;
     Game.max_turns := m;
     Game.enemies := Game.enemies self;
     Game.towers := Game.towers self |}.

(** Heap at the end of a turn that starts in [h]: movement of all the
    enemies first, then the volleys of the towers in order. *)
Definition turn_heap (self : Game.t) (h : gmap loc Enemy.t) : gmap loc Enemy.t :=
  barrage (Game.towers self) (Game.enemies self) (moved (Game.enemies self) h).

(** The lines of the attack phase: the tower at index [j] reports the
    result of its [attack] on the heap left by the towers before it. *)
Definition attack_lines (ts : list Tower.t) (ls : list loc) (h : gmap loc Enemy.t) : list line :=
  imap (fun j t => attack_line t (value_of (Tower.attack t ls (barrage (take j ts) ls h)))) ts.

(** Everything a turn that starts in [h] prints. *)
Definition turn_lines (self : Game.t) (h : gmap loc Enemy.t) : list line :=
  L_turn (Game.current_turn self + 1) ::
  (L_move_phase :: (move_line <$> visits Enemy.move (Game.enemies self) h)) ++
  (L_attack_phase ::
     attack_lines (Game.towers self) (Game.enemies self) (moved (Game.enemies self) h)) ++
  (L_status_phase :: (status_line <$> objects (Game.enemies self) (turn_heap self h))).

(** One method call on an enemy during a game with towers [ts]: [move], or
    the visit of one of the towers. *)
Inductive step (ts : list Tower.t) : Enemy.t -> Enemy.t -> Prop :=
  | step_move e : step ts e (Enemy.move e)
  | step_hit t e : t ∈ ts -> step ts e (hit t e).

(** [n] calls of [run_turn], one after the other. *)
Fixpoint run_turns (n : nat) (self : Game.t) : M Game.t :=
  match n with
  | O => ret self
  | S n' => self' ← Game.run_turn self; run_turns n' self'
  end.

(** The number a turn header carries. *)
Definition turn_of (l : line) : option Z :=
  match l with L_turn n => Some n | _ => None end.

(** Two lists of references that alias the same way: the pairs of [ps]
    put the objects of two heaps in correspondence. *)
Definition corr (ps : list (loc * loc)) : Prop :=
  forall a b c d, (a, b) ∈ ps -> (c, d) ∈ ps -> (a = c <-> b = d).

(** The corresponding objects are equal. *)
Definition sim (ps : list (loc * loc)) (h1 h2 : gmap loc Enemy.t) : Prop :=
  forall a b, (a, b) ∈ ps -> h1 !! a = h2 !! b.

(** Two game objects that differ in the addresses of their enemies only. *)
Definition twin (ps : list (loc * loc)) (g1 g2 : Game.t) : Prop :=
  Game.enemies g1 = ps.*1 /\ Game.enemies g2 = ps.*2
  /\ Game.towers g1 = Game.towers g2
  /\ Game.current_turn g1 = Game.current_turn g2
  /\ Game.max_turns g1 = Game.max_turns g2.

(** One call of a mutating method of [Enemy], with any argument. *)
Definition method_call (e e' : Enemy.t) : Prop :=
  e' = Enemy.move e \/ exists damage, e' = Enemy.take_damage damage e.

(** The attack powers of a list of towers, added up. *)
Definition total_power (ts : list Tower.t) : Z :=
  foldr (fun t s => Tower.attack_power t + s) 0 ts.

(** What the towers [ts], in order, do to one enemy after it has moved. *)
Definition turn_object (ts : list Tower.t) (e : Enemy.t) : Enemy.t :=
  foldl (fun e t => hit t e) (Enemy.move e) ts.

(** ** Scenarios *)

(** The game of the program, played to its end on an empty heap. *)
Definition played : Game.t * gmap loc Enemy.t * list line := main ∅.

(** One enemy walking past one tower: killed by the second hit. *)
Definition walk : Game.t * gmap loc Enemy.t * list line :=
  Game.create [Enemy.init "E1" 0 0 1 0 10] [Tower.Build "T1" 1 0 5 2] 2 ∅.

(** Two towers in range of two enemies; the first tower kills the first
    enemy. *)
Definition duel : Game.t * gmap loc Enemy.t * list line :=
  Game.create
    [Enemy.init "E1" 0 0 1 0 5; Enemy.init "E2" 0 1 1 0 20]
    [Tower.Build "T1" 1 0 6 2; Tower.Build "T2" 1 1 6 2] 3 ∅.

(** The heap of [duel] in its first turn, when the second tower's turn
    comes. *)
Definition duel_mid : gmap loc Enemy.t :=
  barrage (take 1 (Game.towers (value_of duel))) (Game.enemies (value_of duel))
    (moved (Game.enemies (value_of duel)) (heap_of duel)).

(** A game whose only enemy is dead from the start. *)
Definition graveyard : Game.t * gmap loc Enemy.t * list line :=
  Game.create [Enemy.Build "E1" 0 0 1 0 0 false] [Tower.Build "T1" 1 0 5 2] 3 ∅.

(** * Enemy and Tower: the methods *)

(** Unfold the plumbing of the monad. *)
Ltac unfold_M :=
  unfold mbind, mret, M_bind, M_ret, bind, ret, print, store,
    value_of, heap_of, output_of in *.


Section Enemy_methods.

Implicit Types (e : Enemy.t) (damage : Z).

Lemma take_damage_dead damage e :
  Enemy.alive e = false -> Enemy.take_damage damage e = e.
Proof. unfold Enemy.take_damage. intros ->. reflexivity. Qed.

Lemma move_dead e : Enemy.alive e = false -> Enemy.move e = e.
Proof. unfold Enemy.move. intros ->. reflexivity. Qed.

Lemma take_damage_life_nonneg damage e :
  Enemy.alive e = true -> 0 <= Enemy.life (Enemy.take_damage damage e).
Proof.
  unfold Enemy.take_damage. intros ->. cbn zeta.
  destruct (Z.leb_spec (Enemy.life e - damage) 0); simpl; lia.
Qed.

(** A dead object has no life left: death is only ever recorded by
    [take_damage], together with [life = 0]. *)
Lemma reachable_dead_life e :
  reachable e -> Enemy.alive e = false -> Enemy.life e = 0.
Proof.
  induction 1 as [| e _ IH | damage e _ IH]; intros Hdead.
  - discriminate.
  - destruct (Enemy.alive e) eqn:Ha.
    + unfold Enemy.move in Hdead. rewrite Ha in Hdead. simpl in Hdead. congruence.
    + rewrite move_dead by assumption. auto.
  - destruct (Enemy.alive e) eqn:Ha.
    + unfold Enemy.take_damage in *. rewrite Ha in *. cbn zeta in *.
      destruct (Enemy.life e - damage <=? 0); simpl in *; [reflexivity | congruence].
    + rewrite take_damage_dead by assumption. auto.
Qed.

End Enemy_methods.

(** C2. [take_damage] on an alive unit subtracts the amount from its life;
    when the difference is at most 0 the life becomes exactly 0 and the
    alive flag false, otherwise the difference is kept and the unit stays
    alive; nothing else changes.  The life after the call is never
    negative, on an alive unit for any amount and on any unit the program
    can build for a non-negative amount. *)
Theorem take_damage_spec (e : Enemy.t) (damage : Z) :
  let e' := Enemy.take_damage damage e in
  (Enemy.alive e = true ->
     (Enemy.life e - damage <= 0 -> Enemy.life e' = 0 /\ Enemy.alive e' = false)
     /\ (0 < Enemy.life e - damage ->
         Enemy.life e' = Enemy.life e - damage /\ Enemy.alive e' = true)
     /\ 0 <= Enemy.life e'
     /\ Enemy.name e' = Enemy.name e
     /\ (Enemy.x e', Enemy.y e') = (Enemy.x e, Enemy.y e)
     /\ (Enemy.dx e', Enemy.dy e') = (Enemy.dx e, Enemy.dy e))
  /\ (reachable e -> 0 <= damage -> 0 <= Enemy.life e').
Proof.
  cbn zeta. split.
  - intros Ha. unfold Enemy.take_damage. rewrite Ha. cbn zeta.
    destruct (Z.leb_spec (Enemy.life e - damage) 0); simpl; repeat split; auto; lia.
  - intros Hr _. destruct (Enemy.alive e) eqn:Ha.
    + apply take_damage_life_nonneg. exact Ha.
    + rewrite take_damage_dead by exact Ha.
      rewrite (reachable_dead_life e Hr Ha). lia.
Qed.

Lemma take_damage_spec_witness :
  Enemy.life (Enemy.take_damage 6 (Enemy.take_damage 6 (Enemy.init "E" 0 0 1 0 10))) = 0
  /\ Enemy.alive (Enemy.take_damage 6 (Enemy.take_damage 6 (Enemy.init "E" 0 0 1 0 10))) = false
  /\ 0 <= Enemy.life (Enemy.take_damage 6 (Enemy.take_damage 6 (Enemy.init "E" 0 0 1 0 10))).
Proof.
  pose proof (take_damage_spec (Enemy.take_damage 6 (Enemy.init "E" 0 0 1 0 10)) 6) as [Halive Hreach].
  destruct (Halive eq_refl) as (Hkill & _).
  destruct (Hkill ltac:(simpl; lia)) as [Hlife Hdead].
  split; [exact Hlife | split; [exact Hdead |]].
  apply Hreach; [repeat constructor | lia].
Defined.



Section Tower_methods.

Implicit Types (t : Tower.t) (e : Enemy.t).



Lemma can_attack_dead t e : Enemy.alive e = false -> Tower.can_attack t e = false.
Proof. unfold Tower.can_attack, Enemy.is_alive. intros ->. reflexivity. Qed.

Lemma hit_dead t e : Enemy.alive e = false -> hit t e = e.
Proof. intros Hd. unfold hit. rewrite can_attack_dead by exact Hd. reflexivity. Qed.

End Tower_methods.



(** * Loops over the heap *)

Section Heap_folds.

Implicit Types (h : gmap loc Enemy.t) (l : loc) (ls : list loc) (f : Enemy.t -> Enemy.t).

(** Writing back [f e] over [e] is [alter f]. *)
Lemma insert_as_alter f h l e :
  h !! l = Some e -> <[l := f e]> h = alter f l h.
Proof.
  intros Hl. apply map_eq. intros l'.
  destruct (decide (l = l')) as [<- | Hne].
  - rewrite lookup_insert_eq, lookup_alter_eq, Hl. reflexivity.
  - rewrite lookup_insert_ne, lookup_alter_ne by exact Hne. reflexivity.
Qed.

Lemma alter_fix f h l e :
  h !! l = Some e -> f e = e -> alter f l h = h.
Proof.
  intros Hl Hf. apply alter_id. intros e' He'. congruence.
Qed.

Lemma alter_missing f h l : h !! l = None -> alter f l h = h.
Proof. intros Hl. apply alter_id. intros e' He'. congruence. Qed.

Lemma foldl_alter_notin f ls h l :
  l ∉ ls -> foldl (fun h l => alter f l h) h ls !! l = h !! l.
Proof.
  revert h. induction ls as [| l' ls IH]; intros h Hnotin; [reflexivity |].
  apply not_elem_of_cons in Hnotin as [Hne Hnotin]. simpl.
  rewrite IH by exact Hnotin. apply lookup_alter_ne. congruence.
Qed.

Lemma foldl_alter_in f ls h l :
  NoDup ls -> l ∈ ls -> foldl (fun h l => alter f l h) h ls !! l = f <$> h !! l.
Proof.
  revert h. induction ls as [| l' ls IH]; intros h Hnd Hin.
  - apply elem_of_nil in Hin as [].
  - apply NoDup_cons in Hnd as [Hnotin Hnd]. simpl.
    apply elem_of_cons in Hin as [-> | Hin].
    + rewrite foldl_alter_notin by exact Hnotin. apply lookup_alter_eq.
    + rewrite IH by assumption. rewrite lookup_alter_ne; [reflexivity |].
      intros ->. contradiction.
Qed.

(** An object fixed by [f] is left as it is by the whole fold. *)
Lemma foldl_alter_fixed f ls h l e :
  h !! l = Some e -> f e = e -> foldl (fun h l => alter f l h) h ls !! l = Some e.
Proof.
  revert h. induction ls as [| l' ls IH]; intros h Hl Hf; [exact Hl |].
  simpl. apply IH; [| exact Hf].
  destruct (decide (l' = l)) as [-> | Hne].
  - rewrite lookup_alter_eq, Hl. simpl. congruence.
  - rewrite lookup_alter_ne by exact Hne. exact Hl.
Qed.

End Heap_folds.

(** ** Sequencing *)

Lemma run_bind {A B} (m : M A) (k : A -> M B) (h : gmap loc Enemy.t) :
  (m ≫= k) h =
  (value_of (k (value_of (m h)) (heap_of (m h))),
   heap_of (k (value_of (m h)) (heap_of (m h))),
   output_of (m h) ++ output_of (k (value_of (m h)) (heap_of (m h)))).
Proof.
  unfold mbind, M_bind, bind, value_of, heap_of, output_of.
  destruct (m h) as [[a h1] o1]. simpl. destruct (k a h1) as [[b h2] o2]. reflexivity.
Qed.

Lemma run_bind_eq {A B} (m : M A) (k : A -> M B) (h h1 h2 : gmap loc Enemy.t)
    (a : A) (b : B) (o1 o2 : list line) :
  m h = (a, h1, o1) -> k a h1 = (b, h2, o2) -> (m ≫= k) h = (b, h2, o1 ++ o2).
Proof. intros Hm Hk. unfold mbind, M_bind, bind. rewrite Hm, Hk. reflexivity. Qed.

Lemma run_print {B} (l : line) (k : M B) (h : gmap loc Enemy.t) :
  (print l;; k) h = (value_of (k h), heap_of (k h), l :: output_of (k h)).
Proof. rewrite run_bind. reflexivity. Qed.

(** ** Loops of method bodies *)

Section Loops.

Context {S : Type}.

Implicit Types (h : gmap loc Enemy.t) (l : loc) (ls : list loc) (s : S).

(** A loop whose body replaces the object by [upd enemy], updates the local
    state with [next] and prints [say enemy]: it alters the objects in
    order, and its state and output are those of the visited objects. *)
Lemma for_enemies_spec (body : loc -> Enemy.t -> S -> M S)
    (upd : Enemy.t -> Enemy.t) (next : Enemy.t -> S -> S) (say : Enemy.t -> list line) :
  (forall l e s h, h !! l = Some e ->
     body l e s h = (next e s, alter upd l h, say e)) ->
  forall ls s h,
    for_enemies ls body s h =
    (foldl (fun s e => next e s) s (visits upd ls h),
     foldl (fun h l => alter upd l h) h ls,
     visits upd ls h ≫= say).
Proof.
  intros Hbody. induction ls as [| l ls IH]; intros s h; [reflexivity |].
  simpl. destruct (h !! l) as [e |] eqn:Hl.
  - unfold mbind at 1, M_bind, bind. rewrite (Hbody l e s h Hl), IH. reflexivity.
  - rewrite IH, (alter_missing upd h l Hl). reflexivity.
Qed.

End Loops.

Section Visits.

Implicit Types (h : gmap loc Enemy.t) (l : loc) (ls : list loc) (upd : Enemy.t -> Enemy.t).



(** A loop that changes nothing meets the objects as they are. *)
Lemma visits_id ls h : visits (fun e => e) ls h = objects ls h.
Proof.
  induction ls as [| l ls IH]; [reflexivity |]. simpl.
  rewrite (alter_id (fun e => e) h l) by reflexivity.
  rewrite IH. reflexivity.
Qed.

Lemma foldl_alter_id ls h : foldl (fun h l => alter (fun e => e) l h) h ls = h.
Proof.
  induction ls as [| l ls IH]; [reflexivity |]. simpl.
  rewrite (alter_id (fun e => e) h l) by reflexivity. exact IH.
Qed.

End Visits.

(** Names collected by appending, as the accumulator of [attack] does. *)
Lemma foldl_append_names (P : Enemy.t -> bool) (es : list Enemy.t) (acc : list string) :
  foldl (fun acc e => acc ++ (if P e then [Enemy.name e] else [])) acc es =
  acc ++ (Enemy.name <$> filter (fun e => P e = true) es).
Proof.
  revert acc. induction es as [| e es IH]; intros acc; simpl.
  - rewrite app_nil_r. reflexivity.
  - rewrite IH. destruct (P e) eqn:HP.
    + rewrite filter_cons_True by exact HP. rewrite <- app_assoc. reflexivity.
    + rewrite filter_cons_False by congruence. rewrite app_nil_r. reflexivity.
Qed.

Lemma bind_silent {A} (xs : list A) : xs ≫= (fun _ => @nil line) = [].
Proof. induction xs as [| x xs IH]; [reflexivity |]. rewrite bind_cons, IH. reflexivity. Qed.

Lemma bind_one {A B} (f : A -> B) (xs : list A) : xs ≫= (fun x => [f x]) = f <$> xs.
Proof. induction xs as [| x xs IH]; [reflexivity |]. rewrite bind_cons, IH. reflexivity. Qed.

(** ** [Tower.attack] *)

Section Attack.

Variable t : Tower.t.

Implicit Types (h : gmap loc Enemy.t) (l : loc) (ls : list loc).

(** The call alters every listed object by [hit], in order; it returns the
    names of the objects that were targets when the loop met them, in the
    order of the list, and prints nothing. *)
Lemma attack_visits ls h :
  Tower.attack t ls h =
  (Enemy.name <$> filter (fun e => Tower.can_attack t e = true) (visits (hit t) ls h),
   volley t ls h, []).
Proof.
  unfold Tower.attack.
  rewrite (for_enemies_spec _ (hit t)
             (fun e acc => acc ++ (if Tower.can_attack t e then [Enemy.name e] else []))
             (fun _ => [])).
  - rewrite (foldl_append_names (Tower.can_attack t)), bind_silent. reflexivity.
  - intros l e acc h' Hl. unfold hit.
    destruct (Tower.can_attack t e) eqn:Hc.
    + rewrite <- (insert_as_alter _ h' l e Hl), Hc. reflexivity.
    + rewrite (alter_fix _ h' l e Hl) by (rewrite Hc; reflexivity).
      unfold_M. rewrite app_nil_r. reflexivity.
Qed.

(** No target among the listed objects: nothing changes, nothing is
    returned. *)
Lemma attack_no_target ls h :
  (forall l e, l ∈ ls -> h !! l = Some e -> Tower.can_attack t e = false) ->
  Tower.attack t ls h = ([], h, []).
Proof.
  intros Hnone. rewrite attack_visits. unfold volley.
  revert Hnone. induction ls as [| l ls IH]; intros Hnone; [reflexivity |].
  assert (Hfix : alter (hit t) l h = h).
  { destruct (h !! l) as [e |] eqn:Hl.
    - apply (alter_fix _ h l e Hl). unfold hit.
      rewrite (Hnone l e) by (apply list_elem_of_here || exact Hl). reflexivity.
    - apply alter_missing, Hl. }
  simpl. rewrite Hfix.
  assert (IH' := IH ltac:(intros l' e' Hin; apply Hnone, list_elem_of_further, Hin)).
  destruct (h !! l) as [e |] eqn:Hl; [| exact IH'].
  rewrite filter_cons_False
    by (rewrite (Hnone l e) by (apply list_elem_of_here || exact Hl); discriminate).
  exact IH'.
Qed.

(** An object that is dead when the call starts is passed over: the call
    does what it would do on the list without it. *)
Lemma attack_skips_dead ls h l e :
  h !! l = Some e -> Enemy.alive e = false ->
  Tower.attack t ls h = Tower.attack t (filter (fun l' => l' <> l) ls) h.
Proof.
  intros Hl Hdead. rewrite !attack_visits. unfold volley.
  enough (Hboth :
    filter (fun e => Tower.can_attack t e = true) (visits (hit t) ls h) =
    filter (fun e => Tower.can_attack t e = true)
      (visits (hit t) (filter (fun l' => l' <> l) ls) h)
    /\ foldl (fun h l => alter (hit t) l h) h ls =
       foldl (fun h l => alter (hit t) l h) h (filter (fun l' => l' <> l) ls))
    by (destruct Hboth as [-> ->]; reflexivity).
  revert h Hl. induction ls as [| l' ls IH]; intros h Hl; [split; reflexivity |].
  destruct (decide (l' = l)) as [-> | Hne].
  - rewrite (filter_cons_False (fun l' => l' <> l)) by (intros Hne; apply Hne; reflexivity).
    cbn [visits foldl]. rewrite Hl.
    rewrite (alter_fix (hit t) h l e Hl) by (apply hit_dead, Hdead).
    rewrite filter_cons_False by (rewrite can_attack_dead by exact Hdead; discriminate).
    apply IH, Hl.
  - rewrite (filter_cons_True (fun l' => l' <> l)) by exact Hne.
    cbn [visits foldl].
    assert (Hl' : alter (hit t) l' h !! l = Some e)
      by (rewrite lookup_alter_ne by exact Hne; exact Hl).
    destruct (IH _ Hl') as [IHnames IHheap].
    split; [| exact IHheap].
    destruct (h !! l') as [e' |] eqn:Hl''.
    + destruct (Tower.can_attack t e') eqn:Hc.
      * rewrite !(filter_cons_True (fun e => Tower.can_attack t e = true)) by exact Hc.
        rewrite IHnames. reflexivity.
      * rewrite !(filter_cons_False (fun e => Tower.can_attack t e = true)) by congruence.
        exact IHnames.
    + rewrite (alter_missing (hit t) h l' Hl'') in IHnames. exact IHnames.
Qed.

End Attack.



(** * The turn engine *)

Section Phases.

Variable self : Game.t.

Local Abbreviation ls := (Game.enemies self).
Local Abbreviation ts := (Game.towers self).

Implicit Types (h : gmap loc Enemy.t).

Lemma move_phase_spec h :
  Game.move_phase self h =
  (tt, moved ls h, L_move_phase :: (move_line <$> visits Enemy.move ls h)).
Proof.
  unfold Game.move_phase. rewrite run_print.
  rewrite (for_enemies_spec _ Enemy.move (fun _ u => u) (fun e => [move_line e])).
  - rewrite bind_one.
    replace (foldl (fun (u : unit) _ => u) tt (visits Enemy.move (Game.enemies self) h))
      with tt by (destruct (foldl _ _ _); reflexivity).
    reflexivity.
  - intros l e [] h' Hl. unfold move_line. destruct (Enemy.is_alive e) eqn:Ha.
    + rewrite <- (insert_as_alter _ h' l e Hl). reflexivity.
    + rewrite (alter_fix _ h' l e Hl) by (apply move_dead, Ha). reflexivity.
Qed.

(** A loop that only prints a line for each enemy. *)
Lemma report_loop_spec (say : Enemy.t -> line) h :
  for_enemies ls (fun _ enemy _ => print (say enemy)) tt h =
  (tt, h, say <$> objects ls h).
Proof.
  rewrite (for_enemies_spec _ (fun e => e) (fun _ u => u) (fun e => [say e])).
  - rewrite bind_one, visits_id, foldl_alter_id.
    destruct (foldl _ _ _). reflexivity.
  - intros l e [] h' Hl. rewrite (alter_id (fun e => e) h' l) by reflexivity. reflexivity.
Qed.

Lemma status_phase_spec h :
  Game.status_phase self h = (tt, h, L_status_phase :: (status_line <$> objects ls h)).
Proof.
  unfold Game.status_phase. rewrite run_print, (report_loop_spec status_line). reflexivity.
Qed.

Lemma print_results_spec h :
  Game.print_results self h =
  (tt, h, [L_rule_top; L_results; L_rule] ++ (result_line <$> objects ls h)).
Proof.
  unfold Game.print_results. rewrite !run_print, (report_loop_spec result_line). reflexivity.
Qed.

(** The line of each tower reports what its [attack] returned on the heap
    left by the towers before it. *)
Lemma tower_loop_spec (towers : list Tower.t) h :
  for_each towers (fun tower _ =>
      attacked ← Tower.attack tower ls;
      match attacked with
      | _ :: _ => print (L_attack (Tower.name tower) attacked (Tower.attack_power tower))
      | [] => print (L_no_target (Tower.name tower))
      end) tt h =
  (tt, barrage towers ls h,
   imap (fun j t => attack_line t (value_of (Tower.attack t ls (barrage (take j towers) ls h))))
        towers).
Proof.
  revert h. induction towers as [| t towers IH]; intros h; [reflexivity |].
  cbn [for_each]. unfold mbind at 1, M_bind, bind.
  unfold mbind at 1, M_bind, bind. rewrite attack_visits.
  set (names := Enemy.name <$> _).
  assert (Hline : (match names with
                   | _ :: _ => print (L_attack (Tower.name t) names (Tower.attack_power t))
                   | [] => print (L_no_target (Tower.name t))
                   end) (volley t ls h) = (tt, volley t ls h, [attack_line t names]))
    by (destruct names; reflexivity).
  rewrite Hline, IH, imap_cons.
  change (barrage (take 0 (t :: towers)) ls h) with h.
  rewrite (attack_visits t ls h). reflexivity.
Qed.

Lemma attack_phase_spec h :
  Game.attack_phase self h =
  (tt, barrage ts ls h,
   L_attack_phase :: attack_lines ts ls h).
Proof.
  unfold Game.attack_phase. rewrite run_print. rewrite (tower_loop_spec ts h). reflexivity.
Qed.

End Phases.

(** One turn: the counter goes up by one, whatever [max_turns] is; the
    heap is [turn_heap], the output [turn_lines]. *)
Lemma run_turn_spec (self : Game.t) (h : gmap loc Enemy.t) :
  Game.run_turn self h = (next_turn self, turn_heap self h, turn_lines self h).
Proof.
  unfold Game.run_turn. cbn zeta. fold (next_turn self).
  unfold mbind, M_bind, bind, print, ret.
  rewrite (move_phase_spec (next_turn self)). cbv beta iota.
  rewrite (attack_phase_spec (next_turn self)). cbv beta iota.
  rewrite (status_phase_spec (next_turn self)). cbv beta iota.
  rewrite app_nil_r. reflexivity.
Qed.

(** ** Several turns *)

Section Turns.

Implicit Types (self : Game.t) (h : gmap loc Enemy.t) (n : nat).

Lemma run_turns_S n self h :
  run_turns (S n) self h =
  (value_of (run_turns n (next_turn self) (turn_heap self h)),
   heap_of (run_turns n (next_turn self) (turn_heap self h)),
   turn_lines self h ++ output_of (run_turns n (next_turn self) (turn_heap self h))).
Proof.
  cbn [run_turns].
  destruct (run_turns n (next_turn self) (turn_heap self h)) as [[g' h'] o'] eqn:Hrest.
  exact (run_bind_eq _ _ _ _ _ _ _ _ _ (run_turn_spec self h) Hrest).
Qed.

(** The state after [n] turns, and the snapshots of the [n] turns in the
    order they were played. *)
Lemma run_turns_spec n self h :
  run_turns n self h =
  (Nat.iter n next_turn self, Nat.iter n (turn_heap self) h,
   mjoin ((fun i => turn_lines (Nat.iter i next_turn self) (Nat.iter i (turn_heap self) h))
            <$> seq 0 n)).
Proof.
  revert self h. induction n as [| n IH]; intros self h; [reflexivity |].
  cbn [run_turns].
  etrans; [exact (run_bind_eq _ _ _ _ _ _ _ _ _ (run_turn_spec self h) (IH _ _)) |].
  rewrite !Nat.iter_succ_r. cbn [seq fmap list_fmap mjoin list_join].
  rewrite <- fmap_S_seq, <- list_fmap_compose.
  f_equal. f_equal. f_equal. apply list_fmap_ext. intros i j _.
  unfold compose. rewrite !Nat.iter_succ_r. reflexivity.
Qed.

Lemma iter_next_turn n self :
  Game.current_turn (Nat.iter n next_turn self) = Game.current_turn self + Z.of_nat n
  /\ Game.max_turns (Nat.iter n next_turn self) = Game.max_turns self
  /\ Game.enemies (Nat.iter n next_turn self) = Game.enemies self
  /\ Game.towers (Nat.iter n next_turn self) = Game.towers self.
Proof.
  induction n as [| n (IHc & IHm & IHe & IHt)].
  - simpl. repeat split. lia.
  - change (Nat.iter (S n) next_turn self) with (next_turn (Nat.iter n next_turn self)).
    unfold next_turn at 1 3 5 7.
    cbn [Game.current_turn Game.max_turns Game.enemies Game.towers].
    rewrite IHc. repeat split; try assumption. lia.
Qed.

(** The loop of [run_game] plays one turn for each element of the range. *)
Lemma turn_loop_spec {A} (xs : list A) self h :
  for_each xs (fun _ self => Game.run_turn self) self h = run_turns (length xs) self h.
Proof.
  revert self h. induction xs as [| x xs IH]; intros self h; [reflexivity |].
  cbn [for_each length run_turns]. rewrite !run_bind, !IH. reflexivity.
Qed.

Lemma length_range (m : Z) : length (range m) = Z.to_nat m.
Proof. unfold range. rewrite length_fmap, length_seq. reflexivity. Qed.

End Turns.

(** ** What happens to one enemy *)

Section History.

Implicit Types (h : gmap loc Enemy.t) (l : loc) (ls : list loc) (e : Enemy.t).

Lemma foldl_alter_history (R : relation Enemy.t) (f : Enemy.t -> Enemy.t) ls h l e :
  (forall e, rtc R e (f e)) ->
  h !! l = Some e ->
  exists e', foldl (fun h l => alter f l h) h ls !! l = Some e' /\ rtc R e e'.
Proof.
  intros Hf. revert h e. induction ls as [| l' ls IH]; intros h e Hl.
  - exists e. split; [exact Hl | reflexivity].
  - cbn [foldl]. destruct (decide (l' = l)) as [-> | Hne].
    + destruct (IH (alter f l h) (f e)) as (e' & He' & Hrtc).
      { rewrite lookup_alter_eq, Hl. reflexivity. }
      exists e'. split; [exact He' | etrans; [apply Hf | exact Hrtc]].
    + apply IH. rewrite lookup_alter_ne by exact Hne. exact Hl.
Qed.

Variable ts : list Tower.t.

Lemma moved_history ls h l e :
  h !! l = Some e ->
  exists e', moved ls h !! l = Some e' /\ rtc (step ts) e e'.
Proof.
  apply foldl_alter_history. intros e0. apply rtc_once. constructor.
Qed.

Lemma volley_history t ls h l e :
  t ∈ ts -> h !! l = Some e ->
  exists e', volley t ls h !! l = Some e' /\ rtc (step ts) e e'.
Proof.
  intros Hin. apply foldl_alter_history. intros e0. apply rtc_once. constructor. exact Hin.
Qed.

Lemma barrage_history (ts' : list Tower.t) ls h l e :
  ts' ⊆ ts -> h !! l = Some e ->
  exists e', barrage ts' ls h !! l = Some e' /\ rtc (step ts) e e'.
Proof.
  revert h e. induction ts' as [| t ts' IH]; intros h e Hsub Hl.
  - exists e. split; [exact Hl | reflexivity].
  - cbn [barrage foldl].
    destruct (volley_history t ls h l e) as (e1 & He1 & Hrtc1);
      [apply Hsub, list_elem_of_here | exact Hl |].
    destruct (IH (volley t ls h) e1) as (e' & He' & Hrtc');
      [intros t' Ht'; apply Hsub, list_elem_of_further, Ht' | exact He1 |].
    exists e'. split; [exact He' | etrans; eassumption].
Qed.

End History.

(** Every object of the heap goes through a turn, and through any number
    of turns, by calls of [move] and visits of the towers of the game. *)
Lemma turn_heap_history (self : Game.t) (h : gmap loc Enemy.t) (l : loc) (e : Enemy.t) :
  h !! l = Some e ->
  exists e', turn_heap self h !! l = Some e' /\ rtc (step (Game.towers self)) e e'.
Proof.
  intros Hl. unfold turn_heap.
  destruct (moved_history (Game.towers self) (Game.enemies self) h l e Hl)
    as (e1 & He1 & Hrtc1).
  destruct (barrage_history (Game.towers self) (Game.towers self) (Game.enemies self)
              _ l e1 ltac:(reflexivity) He1) as (e' & He' & Hrtc').
  exists e'. split; [exact He' | etrans; eassumption].
Qed.

Lemma run_turns_history (n : nat) (self : Game.t) (h : gmap loc Enemy.t) (l : loc) (e : Enemy.t) :
  h !! l = Some e ->
  exists e', heap_of (run_turns n self h) !! l = Some e'
             /\ rtc (step (Game.towers self)) e e'.
Proof.
  rewrite run_turns_spec. unfold heap_of. cbn [fst snd].
  induction n as [| n IH]; intros Hl.
  - exists e. split; [exact Hl | reflexivity].
  - destruct (IH Hl) as (e1 & He1 & Hrtc1). cbn [Nat.iter nat_rect].
    destruct (turn_heap_history self _ l e1 He1) as (e' & He' & Hrtc').
    exists e'. split; [exact He' | etrans; eassumption].
Qed.

Section Invariants.

Variable ts : list Tower.t.

Implicit Types (e : Enemy.t).

(** With positive attack powers a call never raises the life, and
    keeps it at 0 or above once it is there. *)
Lemma step_life e e' :
  Forall (fun t => 0 < Tower.attack_power t) ts ->
  step ts e e' -> 0 <= Enemy.life e -> 0 <= Enemy.life e' <= Enemy.life e.
Proof.
  intros Hpow Hstep Hlife. destruct Hstep as [e | t e Hin].
  - unfold Enemy.move. destruct (Enemy.alive e); simpl; lia.
  - rewrite Forall_forall in Hpow. specialize (Hpow t Hin).
    unfold hit, Enemy.take_damage.
    destruct (Tower.can_attack t e); [| lia].
    destruct (Enemy.alive e); [| lia]. cbn zeta.
    destruct (Z.leb_spec (Enemy.life e - Tower.attack_power t) 0); simpl; lia.
Qed.

Lemma history_life e e' :
  Forall (fun t => 0 < Tower.attack_power t) ts ->
  rtc (step ts) e e' -> 0 <= Enemy.life e -> 0 <= Enemy.life e' <= Enemy.life e.
Proof.
  intros Hpow Hrtc. induction Hrtc as [e | e e1 e' Hstep _ IH]; intros Hlife; [lia |].
  pose proof (step_life e e1 Hpow Hstep Hlife) as H1.
  specialize (IH ltac:(lia)). lia.
Qed.

(** No call changes a dead object. *)
Lemma step_dead e e' : step ts e e' -> Enemy.alive e = false -> e' = e.
Proof.
  intros Hstep Hdead. destruct Hstep as [e | t e _].
  - apply move_dead, Hdead.
  - apply hit_dead, Hdead.
Qed.

Lemma history_dead e e' : rtc (step ts) e e' -> Enemy.alive e = false -> e' = e.
Proof.
  intros Hrtc. induction Hrtc as [e | e e1 e' Hstep _ IH]; intros Hdead; [reflexivity |].
  apply (step_dead e e1 Hstep) in Hdead as Heq. subst e1. apply IH, Hdead.
Qed.

End Invariants.

(** C5. In a game whose towers all have a positive attack power, an enemy
    that starts with a positive life has, after any number of turns, a life
    between 0 and the life it started with. *)
Theorem life_within_bounds (self : Game.t) (h : gmap loc Enemy.t) (n : nat)
    (l : loc) (e : Enemy.t) :
  Forall (fun t => 0 < Tower.attack_power t) (Game.towers self) ->
  h !! l = Some e ->
  0 < Enemy.life e ->
  exists e', heap_of (run_turns n self h) !! l = Some e'
             /\ 0 <= Enemy.life e' <= Enemy.life e.
Proof.
  intros Hpow Hl Hlife.
  destruct (run_turns_history n self h l e Hl) as (e' & He' & Hrtc).
  exists e'. split; [exact He' |].
  apply (history_life (Game.towers self) e e' Hpow Hrtc). lia.
Qed.

Lemma run_turns_heap_add (i n : nat) (self : Game.t) (h : gmap loc Enemy.t) :
  heap_of (run_turns (i + n) self h)
  = heap_of (run_turns n self (heap_of (run_turns i self h))).
Proof.
  rewrite !run_turns_spec. unfold heap_of. cbn [fst snd].
  rewrite Nat.add_comm. apply Nat.iter_add.
Qed.

Lemma life_within_bounds_witness :
  exists e', heap_of (run_turns 1 (value_of walk) (heap_of walk)) !! 0%nat = Some e'
             /\ 0 <= Enemy.life e' <= 10.
Proof.
  apply (life_within_bounds (value_of walk) (heap_of walk) 1 0%nat
           (Enemy.init "E1" 0 0 1 0 10)).
  - vm_compute. repeat constructor.
  - vm_compute. reflexivity.
  - simpl. lia.
Defined.

(** C6. An enemy whose alive flag is false after some turn has it false
    after every later turn, and is where it was: the object does not change
    at all any more. *)
Theorem dead_stays_dead (self : Game.t) (h : gmap loc Enemy.t) (i n : nat)
    (l : loc) (e : Enemy.t) :
  heap_of (run_turns i self h) !! l = Some e ->
  Enemy.is_alive e = false ->
  exists e', heap_of (run_turns (i + n) self h) !! l = Some e'
             /\ Enemy.is_alive e' = false
             /\ (Enemy.x e', Enemy.y e') = (Enemy.x e, Enemy.y e)
             /\ e' = e.
Proof.
  intros Hl Hdead. rewrite run_turns_heap_add.
  destruct (run_turns_history n self _ l e Hl) as (e' & He' & Hrtc).
  apply (history_dead (Game.towers self)) in Hrtc as ->; [| exact Hdead].
  exists e. repeat split; assumption.
Qed.

Lemma dead_stays_dead_witness :
  exists e', heap_of (run_turns (2 + 3) (value_of walk) (heap_of walk)) !! 0%nat = Some e'
             /\ Enemy.is_alive e' = false
             /\ (Enemy.x e', Enemy.y e') = (2, 0)
             /\ e' = Enemy.Build "E1" 2 0 1 0 0 false.
Proof.
  apply (dead_stays_dead (value_of walk) (heap_of walk) 2 3 0%nat
           (Enemy.Build "E1" 2 0 1 0 0 false)).
  - vm_compute. reflexivity.
  - reflexivity.
Defined.

(** ** The order of a turn *)

Section Order.

Implicit Types (h : gmap loc Enemy.t) (l : loc) (ls : list loc) (ts : list Tower.t).

Lemma barrage_app ts1 ts2 ls h :
  barrage (ts1 ++ ts2) ls h = barrage ts2 ls (barrage ts1 ls h).
Proof. apply foldl_app. Qed.

(** The tower at index [j] leaves the heap the next tower starts from. *)
Lemma barrage_take_S ts ls h j t :
  ts !! j = Some t ->
  barrage (take (S j) ts) ls h = volley t ls (barrage (take j ts) ls h).
Proof.
  intros Hj. rewrite (take_S_r ts j t Hj), barrage_app. reflexivity.
Qed.

Lemma barrage_take_le ts ls h j k :
  (j <= k)%nat ->
  barrage (take k ts) ls h = barrage (drop j (take k ts)) ls (barrage (take j ts) ls h).
Proof.
  intros Hle. rewrite <- barrage_app.
  replace (take j ts) with (take j (take k ts))
    by (rewrite take_take; f_equal; lia).
  rewrite take_drop. reflexivity.
Qed.

(** Once dead during the attack phase, an enemy is the same object for
    every later tower. *)
Lemma barrage_dead ts ls h j k l e :
  (j <= k)%nat ->
  barrage (take j ts) ls h !! l = Some e ->
  Enemy.alive e = false ->
  barrage (take k ts) ls h !! l = Some e.
Proof.
  intros Hle Hl Hdead. rewrite (barrage_take_le ts ls h j k Hle).
  destruct (barrage_history (drop j (take k ts)) (drop j (take k ts)) ls _ l e
              ltac:(reflexivity) Hl) as (e' & He' & Hrtc).
  apply history_dead in Hrtc as ->; assumption.
Qed.

End Order.

(** C1. A turn moves every listed enemy first ([move] leaves a dead one
    where it is), and only then lets the towers attack, in the order of
    their list: the tower at index [j] attacks on the heap left by the
    movement and by the towers before it, and leaves the heap the next one
    starts from.  An enemy that is dead when a tower's turn comes, for
    instance killed by an earlier tower of the same phase, is the same
    object after every later tower, and each of them does what it would do
    on the list without that enemy. *)
Theorem run_turn_order (self : Game.t) (h : gmap loc Enemy.t) :
  let ls := Game.enemies self in
  let ts := Game.towers self in
  let h0 := moved ls h in
  Game.run_turn self h = (next_turn self, barrage ts ls h0, turn_lines self h)
  /\ (NoDup ls ->
      forall l, h0 !! l = if decide (l ∈ ls) then Enemy.move <$> h !! l else h !! l)
  /\ (forall j t, ts !! j = Some t ->
      heap_of (Tower.attack t ls (barrage (take j ts) ls h0))
      = barrage (take (S j) ts) ls h0)
  /\ (forall j k t l e,
      (j <= k)%nat ->
      ts !! k = Some t ->
      barrage (take j ts) ls h0 !! l = Some e ->
      Enemy.alive e = false ->
      let hk := barrage (take k ts) ls h0 in
      hk !! l = Some e
      /\ heap_of (Tower.attack t ls hk) !! l = Some e
      /\ Tower.attack t ls hk = Tower.attack t (filter (fun l' => l' <> l) ls) hk).
Proof.
  cbn zeta. split; [apply run_turn_spec | split; [| split]].
  - intros Hnd l. unfold moved. destruct (decide (l ∈ Game.enemies self)).
    + apply foldl_alter_in; assumption.
    + apply foldl_alter_notin; assumption.
  - intros j t Hj. rewrite attack_visits. unfold heap_of. cbn [fst snd].
    symmetry. apply barrage_take_S, Hj.
  - intros j k t l e Hle Hk Hl Hdead.
    pose proof (barrage_dead _ _ _ j k l e Hle Hl Hdead) as Hlk.
    split; [exact Hlk | split].
    + rewrite attack_visits. unfold heap_of, volley. cbn [fst snd].
      apply foldl_alter_fixed; [exact Hlk | apply hit_dead, Hdead].
    + apply (attack_skips_dead t _ _ l e Hlk Hdead).
Qed.

(** In [duel] the first tower kills "E1" and wounds "E2"; the second tower,
    within range of both, then attacks "E2" alone. *)
Lemma run_turn_order_witness :
  duel_mid !! 0%nat = Some (Enemy.Build "E1" 1 0 1 0 0 false)
  /\ heap_of (Tower.attack (Tower.Build "T2" 1 1 6 2) (Game.enemies (value_of duel)) duel_mid)
       !! 0%nat = Some (Enemy.Build "E1" 1 0 1 0 0 false)
  /\ Tower.attack (Tower.Build "T2" 1 1 6 2) (Game.enemies (value_of duel)) duel_mid
     = Tower.attack (Tower.Build "T2" 1 1 6 2)
         (filter (fun l' => l' <> 0%nat) (Game.enemies (value_of duel))) duel_mid
  /\ output_of (Game.run_turn (value_of duel) (heap_of duel))
     = [L_turn 1; L_move_phase; L_moved "E1" 0 0 1 0; L_moved "E2" 0 1 1 1;
        L_attack_phase; L_attack "T1" ["E1"; "E2"]%string 6; L_attack "T2" ["E2"%string] 6;
        L_status_phase; L_status "E1" 1 0 0 false; L_status "E2" 1 1 8 true].
Proof.
  destruct (run_turn_order (value_of duel) (heap_of duel)) as (Hrun & _ & _ & Hskip).
  destruct (Hskip 1%nat 1%nat (Tower.Build "T2" 1 1 6 2) 0%nat
              (Enemy.Build "E1" 1 0 1 0 0 false))
    as (Hmid & Hafter & Hsame).
  - lia.
  - vm_compute. reflexivity.
  - vm_compute. reflexivity.
  - reflexivity.
  - split; [exact Hmid | split; [exact Hafter | split; [exact Hsame |]]].
    rewrite Hrun. vm_compute. reflexivity.
Defined.

(** ** The whole game *)

Lemma run_game_spec (self : Game.t) (h : gmap loc Enemy.t) :
  Game.run_game self h =
  (value_of (run_turns (Z.to_nat (Game.max_turns self)) self h),
   heap_of (run_turns (Z.to_nat (Game.max_turns self)) self h),
   [L_start; L_initial] ++ (enemy_line <$> objects (Game.enemies self) h)
   ++ output_of (run_turns (Z.to_nat (Game.max_turns self)) self h)
   ++ [L_rule_top; L_results; L_rule]
   ++ (result_line <$> objects (Game.enemies self)
         (heap_of (run_turns (Z.to_nat (Game.max_turns self)) self h)))).
Proof.
  unfold Game.run_game. rewrite !run_print.
  pose proof (turn_loop_spec (range (Game.max_turns self)) self h) as Hloop.
  rewrite length_range in Hloop.
  pose proof (run_turns_spec (Z.to_nat (Game.max_turns self)) self h) as Hturns.
  rewrite Hturns in Hloop |- *.
  set (self' := Nat.iter _ next_turn self) in *.
  set (h' := Nat.iter _ (turn_heap self) h) in *.
  set (out := mjoin _) in *.
  assert (Hend : (Game.print_results self';; mret self') h'
                 = (self', h', ([L_rule_top; L_results; L_rule]
                                ++ (result_line <$> objects (Game.enemies self) h')) ++ [])).
  { apply (run_bind_eq _ _ h' h' h' tt self'); [| reflexivity].
    rewrite print_results_spec. unfold self'.
    destruct (iter_next_turn (Z.to_nat (Game.max_turns self)) self) as (_ & _ & -> & _).
    reflexivity. }
  assert (Hrest :
    (for_each (range (Game.max_turns self)) (fun _ self => Game.run_turn self) self
       ≫= fun self => Game.print_results self;; mret self) h
    = (self', h', out ++ ([L_rule_top; L_results; L_rule]
                          ++ (result_line <$> objects (Game.enemies self) h')) ++ []))
    by exact (run_bind_eq _ _ _ _ _ _ _ _ _ Hloop Hend).
  rewrite (run_bind_eq _ _ h h _ tt _ _ _
             (report_loop_spec self enemy_line h) Hrest).
  unfold value_of, heap_of, output_of. cbn [fst snd].
  rewrite app_nil_r. reflexivity.
Qed.

Section Turn_headers.

Lemma omap_silent (ls : list line) :
  Forall (fun l => turn_of l = None) ls -> omap turn_of ls = [].
Proof.
  induction 1 as [| l ls Hl _ IH]; [reflexivity |].
  cbn [omap list_omap]. rewrite Hl. exact IH.
Qed.

(** A turn prints exactly one header, with its number. *)
Lemma turn_lines_header (self : Game.t) (h : gmap loc Enemy.t) :
  omap turn_of (turn_lines self h) = [Game.current_turn self + 1].
Proof.
  unfold turn_lines. cbn [omap list_omap turn_of]. f_equal.
  apply omap_silent. rewrite !Forall_app, !Forall_cons. repeat split.
  - apply Forall_fmap, Forall_forall. intros e _. unfold compose, move_line.
    destruct (Enemy.is_alive e); reflexivity.
  - unfold attack_lines. apply Forall_lookup. intros j l Hj.
    rewrite list_lookup_imap in Hj.
    destruct (Game.towers self !! j) as [t |]; [| discriminate].
    injection Hj as <-. unfold attack_line. destruct (value_of _); reflexivity.
  - apply Forall_fmap, Forall_forall. intros e _. reflexivity.
Qed.

Lemma omap_join_fmap {A} (F : A -> list line) (g : A -> Z) (xs : list A) :
  (forall x, omap turn_of (F x) = [g x]) ->
  omap turn_of (mjoin (F <$> xs)) = g <$> xs.
Proof.
  intros HF. induction xs as [| x xs IH]; [reflexivity |].
  cbn [fmap list_fmap mjoin list_join]. rewrite omap_app, HF.
  cbn [app]. f_equal. exact IH.
Qed.

End Turn_headers.

(** C8. [run_game] calls [run_turn] once for each number of
    [range(max_turns)], [max_turns] times, whatever the state of the
    enemies: its final state is the one after that many turns, the turn
    headers it prints are numbered from the counter on without a gap, and
    its output is the initial listing, then the snapshot of each turn in
    the order played, then the final status of every enemy. *)
Theorem run_game_plays_max_turns (self : Game.t) (h : gmap loc Enemy.t) :
  let n := Z.to_nat (Game.max_turns self) in
  let r := run_turns n self h in
  Game.run_game self h =
    (value_of r, heap_of r,
     [L_start; L_initial] ++ (enemy_line <$> objects (Game.enemies self) h)
     ++ output_of r
     ++ [L_rule_top; L_results; L_rule]
     ++ (result_line <$> objects (Game.enemies self) (heap_of r)))
  /\ output_of r =
       mjoin ((fun i => output_of (Game.run_turn (value_of (run_turns i self h))
                                                 (heap_of (run_turns i self h))))
                <$> seq 0 n)
  /\ omap turn_of (output_of (Game.run_game self h)) =
       (fun i => Game.current_turn self + Z.of_nat i) <$> seq 1 n
  /\ (0 <= Game.max_turns self ->
      Game.current_turn (value_of (Game.run_game self h)) =
        Game.current_turn self + Game.max_turns self).
Proof.
  cbn zeta. split; [apply run_game_spec | split; [| split]].
  - rewrite run_turns_spec. unfold output_of at 1. cbn [snd].
    f_equal. apply list_fmap_ext. intros _ i _.
    rewrite run_turns_spec, run_turn_spec. reflexivity.
  - rewrite run_game_spec. unfold output_of at 1. cbn [snd].
    rewrite run_turns_spec. unfold output_of, heap_of. cbn [fst snd].
    rewrite !omap_app.
    rewrite (omap_join_fmap _ (fun i => Game.current_turn self + Z.of_nat (S i))).
    + rewrite !omap_silent.
      * cbn [app]. rewrite app_nil_r, <- fmap_S_seq, <- list_fmap_compose. reflexivity.
      * apply Forall_fmap, Forall_forall. intros e _. reflexivity.
      * repeat constructor.
      * apply Forall_fmap, Forall_forall. intros e _. reflexivity.
      * repeat constructor.
    + intros i. rewrite turn_lines_header.
      destruct (iter_next_turn i self) as (-> & _). f_equal. lia.
  - intros Hmax. rewrite run_game_spec, run_turns_spec. unfold value_of. cbn [fst].
    destruct (iter_next_turn (Z.to_nat (Game.max_turns self)) self) as (-> & _). lia.
Qed.

(** With its only enemy dead from the start the game still plays its three
    turns. *)
Lemma run_game_plays_max_turns_witness :
  objects (Game.enemies (value_of graveyard)) (heap_of graveyard)
    = [Enemy.Build "E1" 0 0 1 0 0 false]
  /\ omap turn_of (output_of (Game.run_game (value_of graveyard) (heap_of graveyard)))
     = [1; 2; 3]
  /\ Game.current_turn (value_of (Game.run_game (value_of graveyard) (heap_of graveyard)))
     = 3.
Proof.
  destruct (run_game_plays_max_turns (value_of graveyard) (heap_of graveyard))
    as (_ & _ & Hheaders & Hcounter).
  split; [vm_compute; reflexivity | split].
  - rewrite Hheaders. vm_compute. reflexivity.
  - rewrite Hcounter; vm_compute; [reflexivity | discriminate].
Defined.

(** C7, as the program has it.  [run_turn] never looks at [max_turns]:
    called when the counter has reached the limit it returns normally,
    after a complete further turn that takes the counter past the limit,
    and does exactly what it does for any other limit. *)
Theorem run_turn_past_max_turns (self : Game.t) (h : gmap loc Enemy.t) :
  Game.max_turns self <= Game.current_turn self ->
  Game.run_turn self h = (next_turn self, turn_heap self h, turn_lines self h)
  /\ Game.current_turn (value_of (Game.run_turn self h)) = Game.current_turn self + 1
  /\ Game.max_turns self < Game.current_turn (value_of (Game.run_turn self h))
  /\ forall m, Game.run_turn (with_max_turns m self) h =
               (with_max_turns m (next_turn self), turn_heap self h, turn_lines self h).
Proof.
  intros Hmax. rewrite run_turn_spec. unfold value_of. cbn [fst Game.current_turn next_turn].
  repeat split; try lia.
  intros m. rewrite run_turn_spec. reflexivity.
Qed.

Lemma run_turn_past_max_turns_witness :
  Game.current_turn (value_of (Game.run_turn (value_of played) (heap_of played))) = 11
  /\ Game.max_turns (value_of played)
     < Game.current_turn (value_of (Game.run_turn (value_of played) (heap_of played))).
Proof.
  destruct (run_turn_past_max_turns (value_of played) (heap_of played)
              ltac:(vm_compute; discriminate)) as (_ & Hturn & Hpast & _).
  split; [exact Hturn | exact Hpast].
Defined.

(** C7, counterexample.  After the ten turns of the game the counter
    equals [max_turns]; one more call of [run_turn] raises no error: it
    plays an eleventh turn, in which the enemy still alive moves on. *)
Lemma run_turn_after_last_turn_plays_on :
  Game.current_turn (value_of played) = Game.max_turns (value_of played)
  /\ Game.current_turn (value_of (Game.run_turn (value_of played) (heap_of played))) = 11
  /\ heap_of played !! 1%nat = Some (Enemy.Build "E2" 22 10 3 1 4 true)
  /\ heap_of (Game.run_turn (value_of played) (heap_of played)) !! 1%nat
     = Some (Enemy.Build "E2" 25 11 3 1 4 true)
  /\ take 4 (output_of (Game.run_turn (value_of played) (heap_of played)))
     = [L_turn 11; L_move_phase; L_not_moved "E1"; L_moved "E2" 22 10 25 11].
Proof. vm_compute. repeat split; reflexivity. Qed.

(** * Independence of the heap layout *)

Section Layout.

Variable ps : list (loc * loc).
Hypothesis Hcorr : corr ps.

Implicit Types (h : gmap loc Enemy.t) (qs : list (loc * loc)) (upd : Enemy.t -> Enemy.t).

Lemma sim_alter upd a b h1 h2 :
  (a, b) ∈ ps -> sim ps h1 h2 -> sim ps (alter upd a h1) (alter upd b h2).
Proof.
  intros Hab Hsim c d Hcd. rewrite !lookup_alter.
  destruct (decide (a = c)) as [Hac | Hac], (decide (b = d)) as [Hbd | Hbd].
  - rewrite (Hsim a b Hab). reflexivity.
  - exfalso. apply Hbd, (Hcorr a b c d Hab Hcd), Hac.
  - exfalso. apply Hac, (Hcorr a b c d Hab Hcd), Hbd.
  - apply Hsim, Hcd.
Qed.

Lemma foldl_alter_sim upd qs h1 h2 :
  qs ⊆ ps -> sim ps h1 h2 ->
  sim ps (foldl (fun h l => alter upd l h) h1 qs.*1)
         (foldl (fun h l => alter upd l h) h2 qs.*2).
Proof.
  revert h1 h2. induction qs as [| [a b] qs IH]; intros h1 h2 Hsub Hsim; [exact Hsim |].
  cbn [fmap list_fmap foldl fst snd]. apply IH.
  - intros q Hq. apply Hsub, list_elem_of_further, Hq.
  - apply sim_alter; [apply Hsub, list_elem_of_here | exact Hsim].
Qed.

(** Loops over corresponding lists meet the same objects. *)
Lemma visits_sim upd qs h1 h2 :
  qs ⊆ ps -> sim ps h1 h2 -> visits upd qs.*1 h1 = visits upd qs.*2 h2.
Proof.
  revert h1 h2. induction qs as [| [a b] qs IH]; intros h1 h2 Hsub Hsim; [reflexivity |].
  assert (Hab : (a, b) ∈ ps) by apply Hsub, list_elem_of_here.
  assert (Hsub' : qs ⊆ ps) by (intros q Hq; apply Hsub, list_elem_of_further, Hq).
  cbn [fmap list_fmap visits fst snd]. rewrite (Hsim a b Hab).
  destruct (h2 !! b) as [e |].
  - f_equal. apply IH; [exact Hsub' | apply sim_alter; assumption].
  - apply IH; assumption.
Qed.

Lemma objects_sim h1 h2 : sim ps h1 h2 -> objects ps.*1 h1 = objects ps.*2 h2.
Proof.
  intros Hsim. rewrite <- !visits_id. apply visits_sim; [reflexivity | exact Hsim].
Qed.

Lemma moved_sim h1 h2 : sim ps h1 h2 -> sim ps (moved ps.*1 h1) (moved ps.*2 h2).
Proof. apply foldl_alter_sim. reflexivity. Qed.

Lemma volley_sim t h1 h2 : sim ps h1 h2 -> sim ps (volley t ps.*1 h1) (volley t ps.*2 h2).
Proof. apply foldl_alter_sim. reflexivity. Qed.

Lemma barrage_sim ts h1 h2 :
  sim ps h1 h2 -> sim ps (barrage ts ps.*1 h1) (barrage ts ps.*2 h2).
Proof.
  revert h1 h2. induction ts as [| t ts IH]; intros h1 h2 Hsim; [exact Hsim |].
  cbn [barrage foldl]. apply IH, volley_sim, Hsim.
Qed.

Lemma attack_sim t h1 h2 :
  sim ps h1 h2 ->
  value_of (Tower.attack t ps.*1 h1) = value_of (Tower.attack t ps.*2 h2).
Proof.
  intros Hsim. rewrite !attack_visits. unfold value_of. cbn [fst].
  rewrite (visits_sim (hit t) ps h1 h2); [reflexivity | reflexivity | exact Hsim].
Qed.

Lemma attack_lines_sim ts h1 h2 :
  sim ps h1 h2 -> attack_lines ts ps.*1 h1 = attack_lines ts ps.*2 h2.
Proof.
  intros Hsim. unfold attack_lines. apply imap_ext. intros j t _.
  rewrite (attack_sim t (barrage (take j ts) ps.*1 h1) (barrage (take j ts) ps.*2 h2));
    [reflexivity |].
  apply barrage_sim, Hsim.
Qed.

Lemma twin_next_turn g1 g2 : twin ps g1 g2 -> twin ps (next_turn g1) (next_turn g2).
Proof.
  intros (He1 & He2 & Ht & Hc & Hm). unfold twin, next_turn.
  cbn [Game.enemies Game.towers Game.current_turn Game.max_turns].
  repeat split; try assumption. rewrite Hc. reflexivity.
Qed.

Lemma turn_heap_sim g1 g2 h1 h2 :
  twin ps g1 g2 -> sim ps h1 h2 -> sim ps (turn_heap g1 h1) (turn_heap g2 h2).
Proof.
  intros (He1 & He2 & Ht & _) Hsim. unfold turn_heap. rewrite He1, He2, Ht.
  apply barrage_sim, moved_sim, Hsim.
Qed.

Lemma turn_lines_sim g1 g2 h1 h2 :
  twin ps g1 g2 -> sim ps h1 h2 -> turn_lines g1 h1 = turn_lines g2 h2.
Proof.
  intros Htwin Hsim. pose proof (turn_heap_sim g1 g2 h1 h2 Htwin Hsim) as Hheap.
  unfold turn_lines. unfold turn_heap in *.
  destruct Htwin as (He1 & He2 & Ht & Hc & _). rewrite He1, He2, Ht, Hc in *.
  rewrite (visits_sim Enemy.move ps h1 h2) by (reflexivity || exact Hsim).
  rewrite (attack_lines_sim _ _ _ (moved_sim h1 h2 Hsim)).
  rewrite (objects_sim _ _ Hheap). reflexivity.
Qed.

(** Any number of turns: same output, corresponding heaps. *)
Lemma run_turns_sim n g1 g2 h1 h2 :
  twin ps g1 g2 -> sim ps h1 h2 ->
  output_of (run_turns n g1 h1) = output_of (run_turns n g2 h2)
  /\ sim ps (heap_of (run_turns n g1 h1)) (heap_of (run_turns n g2 h2))
  /\ twin ps (value_of (run_turns n g1 h1)) (value_of (run_turns n g2 h2)).
Proof.
  revert g1 g2 h1 h2. induction n as [| n IH]; intros g1 g2 h1 h2 Htwin Hsim.
  - split; [reflexivity | split; assumption].
  - destruct (IH (next_turn g1) (next_turn g2) (turn_heap g1 h1) (turn_heap g2 h2))
      as (Hout & Hheap & Hval);
      [apply twin_next_turn, Htwin | apply turn_heap_sim; assumption |].
    rewrite !run_turns_S. unfold value_of, heap_of, output_of in *. cbn [fst snd] in *.
    rewrite (turn_lines_sim g1 g2 h1 h2 Htwin Hsim), Hout.
    split; [reflexivity | split; assumption].
Qed.

Lemma run_game_sim g1 g2 h1 h2 :
  twin ps g1 g2 -> sim ps h1 h2 ->
  output_of (Game.run_game g1 h1) = output_of (Game.run_game g2 h2)
  /\ sim ps (heap_of (Game.run_game g1 h1)) (heap_of (Game.run_game g2 h2))
  /\ twin ps (value_of (Game.run_game g1 h1)) (value_of (Game.run_game g2 h2)).
Proof.
  intros Htwin Hsim. rewrite !run_game_spec.
  pose proof Htwin as (He1 & He2 & _ & _ & Hm). rewrite Hm.
  destruct (run_turns_sim (Z.to_nat (Game.max_turns g2)) g1 g2 h1 h2 Htwin Hsim)
    as (Hout & Hheap & Hval).
  pose proof (objects_sim h1 h2 Hsim) as Hobj.
  pose proof (objects_sim _ _ Hheap) as Hobj'.
  unfold value_of, heap_of, output_of in *. cbn [fst snd] in *.
  rewrite He1, He2, Hout, Hobj, Hobj'. split; [reflexivity | split; assumption].
Qed.

End Layout.

(** ** Construction *)

Section Construction.

Implicit Types (h : gmap loc Enemy.t) (ls acc : list loc) (defs : list Enemy.t).

(** The allocations give one new object for each definition, all at
    different locations. *)
Lemma alloc_loop_spec defs : forall acc ds0 h,
  NoDup acc ->
  Forall2 (fun l d => h !! l = Some d) acc ds0 ->
  exists ls h',
    for_each defs (fun d ls => l ← alloc d; mret (ls ++ [l])) acc h = (ls, h', [])
    /\ NoDup ls
    /\ Forall2 (fun l d => h' !! l = Some d) ls (ds0 ++ defs).
Proof.
  induction defs as [| d defs IH]; intros acc ds0 h Hnd Hobj.
  - exists acc, h. rewrite app_nil_r. repeat split; assumption.
  - set (l := fresh (dom h)).
    assert (Hfresh : h !! l = None) by (apply not_elem_of_dom, is_fresh).
    assert (Hnotin : l ∉ acc).
    { intros Hin. apply list_elem_of_lookup in Hin as [i Hi].
      destruct (Forall2_lookup_l _ _ _ _ _ Hobj Hi) as (d' & _ & Hd'). congruence. }
    destruct (IH (acc ++ [l]) (ds0 ++ [d]) (<[l := d]> h)) as (ls & h' & Hrun & Hnd' & Hobj').
    + apply NoDup_app. repeat split; [exact Hnd | | apply NoDup_singleton].
      intros a Ha Hal. apply list_elem_of_singleton in Hal as ->. contradiction.
    + apply Forall2_app.
      * eapply Forall2_impl; [exact Hobj |]. intros a d' Ha. cbn beta.
        rewrite lookup_insert_ne; [exact Ha |]. intros <-. congruence.
      * constructor; [apply lookup_insert_eq | constructor].
    + exists ls, h'. rewrite <- app_assoc in Hobj'. split; [| split; assumption].
      cbn [for_each].
      exact (run_bind_eq _ _ h (<[l := d]> h) h' (acc ++ [l]) ls [] []
               eq_refl Hrun).
Qed.

Lemma create_spec defs (ts : list Tower.t) (m : Z) h :
  exists ls h',
    Game.create defs ts m h =
      ({| Game.current_turn := 0; Game.max_turns := m;
          Game.enemies := ls; Game.towers := ts |}, h', [])
    /\ NoDup ls
    /\ Forall2 (fun l d => h' !! l = Some d) ls defs.
Proof.
  destruct (alloc_loop_spec defs [] [] h ltac:(constructor) ltac:(constructor))
    as (ls & h' & Hrun & Hnd & Hobj).
  exists ls, h'. split; [| split; assumption].
  unfold Game.create.
  exact (run_bind_eq _ _ h h' h' ls _ [] [] Hrun eq_refl).
Qed.

(** Two games built from the same definitions, wherever their objects
    are. *)
Lemma zip_corr_sim ls1 ls2 defs h1 h2 :
  NoDup ls1 -> NoDup ls2 ->
  Forall2 (fun l d => h1 !! l = Some d) ls1 defs ->
  Forall2 (fun l d => h2 !! l = Some d) ls2 defs ->
  corr (zip ls1 ls2) /\ sim (zip ls1 ls2) h1 h2.
Proof.
  intros Hnd1 Hnd2 Hobj1 Hobj2. split.
  - intros a b c d Hab Hcd.
    apply list_elem_of_lookup in Hab as [i Hi], Hcd as [j Hj].
    apply lookup_zip_Some in Hi as [Hia Hib], Hj as [Hjc Hjd].
    split; intros ->.
    + rewrite (NoDup_lookup _ _ _ _ Hnd1 Hia Hjc) in Hib. congruence.
    + rewrite (NoDup_lookup _ _ _ _ Hnd2 Hib Hjd) in Hia. congruence.
  - intros a b Hab. apply list_elem_of_lookup in Hab as [i Hi].
    apply lookup_zip_Some in Hi as [Hia Hib].
    destruct (Forall2_lookup_l _ _ _ _ _ Hobj1 Hia) as (d1 & Hd1 & ->).
    destruct (Forall2_lookup_l _ _ _ _ _ Hobj2 Hib) as (d2 & Hd2 & ->).
    congruence.
Qed.

End Construction.

(** C9. A game built from given definitions of enemies and towers and a
    given [max_turns], then run, prints the same lines and ends with the
    same enemies, counter and towers whatever heap it is built in: nothing
    but the definitions reaches the result. *)
Theorem run_game_deterministic (defs : list Enemy.t) (ts : list Tower.t) (m : Z)
    (h1 h2 : gmap loc Enemy.t) :
  let r1 := (Game.create defs ts m ≫= Game.run_game) h1 in
  let r2 := (Game.create defs ts m ≫= Game.run_game) h2 in
  output_of r1 = output_of r2
  /\ objects (Game.enemies (value_of r1)) (heap_of r1)
     = objects (Game.enemies (value_of r2)) (heap_of r2)
  /\ Game.current_turn (value_of r1) = Game.current_turn (value_of r2)
  /\ Game.max_turns (value_of r1) = Game.max_turns (value_of r2)
  /\ Game.towers (value_of r1) = Game.towers (value_of r2).
Proof.
  cbn zeta. rewrite !run_bind.
  destruct (create_spec defs ts m h1) as (ls1 & h1' & -> & Hnd1 & Hobj1).
  destruct (create_spec defs ts m h2) as (ls2 & h2' & -> & Hnd2 & Hobj2).
  unfold value_of at 2 3 5 6 8 9 11 12 14 15 17 18,
         heap_of at 2 3 5 6 8 9 11 12 14 15 17 18, output_of at 2 5. cbn [fst snd app].
  set (g1 := Game.Build 0 m ls1 ts). set (g2 := Game.Build 0 m ls2 ts).
  destruct (zip_corr_sim ls1 ls2 defs h1' h2' Hnd1 Hnd2 Hobj1 Hobj2) as [Hcorr Hsim].
  assert (Hlen : length ls1 = length ls2)
    by (rewrite (Forall2_length _ _ _ Hobj1), (Forall2_length _ _ _ Hobj2); reflexivity).
  assert (Htwin : twin (zip ls1 ls2) g1 g2).
  { unfold twin, g1, g2. cbn [Game.enemies Game.towers Game.current_turn Game.max_turns].
    rewrite fst_zip, snd_zip by lia. repeat split. }
  destruct (run_game_sim _ Hcorr g1 g2 h1' h2' Htwin Hsim)
    as (Hout & Hheap & He1 & He2 & Ht & Hc & Hm).
  unfold value_of, heap_of, output_of in *. cbn [fst snd] in *.
  rewrite Hout, He1, He2, (objects_sim _ Hcorr _ _ Hheap).
  repeat split; assumption.
Qed.

(** * Further properties of the methods *)

Section Enemy_more.

Implicit Types (e : Enemy.t) (damage : Z).

Lemma move_fields e :
  Enemy.name (Enemy.move e) = Enemy.name e
  /\ Enemy.dx (Enemy.move e) = Enemy.dx e
  /\ Enemy.dy (Enemy.move e) = Enemy.dy e
  /\ Enemy.life (Enemy.move e) = Enemy.life e
  /\ Enemy.alive (Enemy.move e) = Enemy.alive e.
Proof. unfold Enemy.move. destruct (Enemy.alive e) eqn:Ha; simpl; auto. Qed.

Lemma take_damage_fields damage e :
  Enemy.name (Enemy.take_damage damage e) = Enemy.name e
  /\ Enemy.x (Enemy.take_damage damage e) = Enemy.x e
  /\ Enemy.y (Enemy.take_damage damage e) = Enemy.y e
  /\ Enemy.dx (Enemy.take_damage damage e) = Enemy.dx e
  /\ Enemy.dy (Enemy.take_damage damage e) = Enemy.dy e.
Proof.
  unfold Enemy.take_damage. destruct (Enemy.alive e); [| auto]. cbn zeta.
  destruct (Enemy.life e - damage <=? 0); simpl; auto.
Qed.

Lemma hit_fields (t : Tower.t) e :
  Enemy.name (hit t e) = Enemy.name e
  /\ Enemy.x (hit t e) = Enemy.x e
  /\ Enemy.y (hit t e) = Enemy.y e
  /\ Enemy.dx (hit t e) = Enemy.dx e
  /\ Enemy.dy (hit t e) = Enemy.dy e.
Proof.
  unfold hit. destruct (Tower.can_attack t e); [apply take_damage_fields | auto].
Qed.

End Enemy_more.




Lemma take_damage_twice (e : Enemy.t) (d1 d2 : Z) :
  0 <= d2 ->
  Enemy.take_damage d2 (Enemy.take_damage d1 e) = Enemy.take_damage (d1 + d2) e.
Proof.
  intros Hd2. unfold Enemy.take_damage.
  destruct (Enemy.alive e) eqn:Ha; [| rewrite Ha; reflexivity]. cbn zeta.
  destruct (Z.leb_spec (Enemy.life e - d1) 0) as [H1 | H1]; simpl.
  - destruct (Z.leb_spec (Enemy.life e - (d1 + d2)) 0); [reflexivity | lia].
  - rewrite ?Ha.
    replace (Enemy.life e - d1 - d2) with (Enemy.life e - (d1 + d2)) by lia.
    destruct (Enemy.life e - (d1 + d2) <=? 0); simpl; rewrite ?Ha; reflexivity.
Qed.

(** X2. Damage adds up: a hit followed by a hit of a non-negative amount
    leaves the enemy as one hit of the sum of the two amounts does. *)
Theorem take_damage_additive (e : Enemy.t) (d1 d2 : Z) :
  0 <= d2 ->
  Enemy.take_damage d2 (Enemy.take_damage d1 e) = Enemy.take_damage (d1 + d2) e.
Proof. apply take_damage_twice. Qed.

Lemma take_damage_additive_witness :
  Enemy.take_damage 6 (Enemy.take_damage 6 (Enemy.init "E" 0 0 1 0 10))
  = Enemy.take_damage 12 (Enemy.init "E" 0 0 1 0 10).
Proof. apply (take_damage_additive (Enemy.init "E" 0 0 1 0 10) 6 6). lia. Defined.

(** X3. A negative amount is not refused: on an alive enemy with some life
    left it raises the life by that much. *)
Theorem take_damage_negative_heals (e : Enemy.t) (damage : Z) :
  Enemy.alive e = true -> 0 < Enemy.life e -> damage < 0 ->
  Enemy.take_damage damage e =
    Enemy.Build (Enemy.name e) (Enemy.x e) (Enemy.y e) (Enemy.dx e) (Enemy.dy e)
      (Enemy.life e - damage) true
  /\ Enemy.life e < Enemy.life (Enemy.take_damage damage e).
Proof.
  intros Ha Hlife Hneg. unfold Enemy.take_damage. rewrite Ha. cbn zeta.
  destruct (Z.leb_spec (Enemy.life e - damage) 0); [lia |].
  simpl. rewrite ?Ha. split; [reflexivity | lia].
Qed.

Lemma take_damage_negative_heals_witness :
  Enemy.take_damage (-3) (Enemy.init "E" 0 0 1 0 10) = Enemy.Build "E" 0 0 1 0 13 true
  /\ 10 < Enemy.life (Enemy.take_damage (-3) (Enemy.init "E" 0 0 1 0 10)).
Proof.
  apply (take_damage_negative_heals (Enemy.init "E" 0 0 1 0 10) (-3));
    [reflexivity | simpl; lia | lia].
Defined.

Section Alive_flag.

Implicit Types (e : Enemy.t).

Lemma method_call_alive_iff e e' :
  method_call e e' ->
  (Enemy.is_alive e = true <-> 0 < Enemy.life e) ->
  (Enemy.is_alive e' = true <-> 0 < Enemy.life e').
Proof.
  unfold Enemy.is_alive. intros [-> | [damage ->]] Hinv.
  - destruct (move_fields e) as (_ & _ & _ & -> & ->). exact Hinv.
  - unfold Enemy.take_damage. destruct (Enemy.alive e) eqn:Ha; [| rewrite Ha; exact Hinv].
    cbn zeta. destruct (Z.leb_spec (Enemy.life e - damage) 0); simpl.
    + split; [discriminate | lia].
    + rewrite ?Ha. split; [lia | reflexivity].
Qed.

End Alive_flag.

(** X4. For an enemy constructed with a positive life, after any calls of
    [move] and [take_damage], with any amounts, the alive flag is true
    exactly when the life is positive. *)
Theorem alive_iff_positive_life (name : string) (x y dx dy life : Z) (e : Enemy.t) :
  0 < life ->
  rtc method_call (Enemy.init name x y dx dy life) e ->
  (Enemy.is_alive e = true <-> 0 < Enemy.life e).
Proof.
  intros Hlife Hcalls.
  assert (Hinit : Enemy.is_alive (Enemy.init name x y dx dy life) = true
                  <-> 0 < Enemy.life (Enemy.init name x y dx dy life))
    by (simpl; split; [intros _; exact Hlife | reflexivity]).
  revert Hinit. induction Hcalls as [e | e e1 e' Hcall _ IH]; intros Hinv; [exact Hinv |].
  apply IH, (method_call_alive_iff e e1 Hcall Hinv).
Qed.

Lemma alive_iff_positive_life_witness :
  Enemy.is_alive (Enemy.take_damage 7 (Enemy.move (Enemy.init "E" 0 0 1 0 5))) = true
  <-> 0 < Enemy.life (Enemy.take_damage 7 (Enemy.move (Enemy.init "E" 0 0 1 0 5))).
Proof.
  apply (alive_iff_positive_life "E" 0 0 1 0 5); [lia |].
  eapply rtc_l; [left; reflexivity |].
  eapply rtc_l; [right; exists 7; reflexivity |].
  apply rtc_refl.
Defined.

Section Tower_more.

Implicit Types (t : Tower.t) (e : Enemy.t) (h : gmap loc Enemy.t) (l : loc) (ls : list loc).

(** The range test looks at the position only, which no hit changes. *)
Lemma in_range_hit t t' e : Tower.in_range t (hit t' e) = Tower.in_range t e.
Proof.
  unfold Tower.in_range, Tower.distance_sq.
  destruct (hit_fields t' e) as (_ & -> & -> & _). reflexivity.
Qed.

(** A hit is [take_damage] whenever the enemy is in range: on a dead enemy
    [take_damage] does nothing by itself. *)
Lemma hit_in_range t e :
  hit t e = if Tower.in_range t e then Enemy.take_damage (Tower.attack_power t) e else e.
Proof.
  unfold hit, Tower.can_attack, Enemy.is_alive.
  destruct (Enemy.alive e) eqn:Ha; [reflexivity |].
  rewrite take_damage_dead by exact Ha. destruct (Tower.in_range t e); reflexivity.
Qed.

Lemma hit_commute t1 t2 e :
  0 <= Tower.attack_power t1 -> 0 <= Tower.attack_power t2 ->
  hit t1 (hit t2 e) = hit t2 (hit t1 e).
Proof.
  intros Hp1 Hp2.
  rewrite (hit_in_range t1 (hit t2 e)), (hit_in_range t2 (hit t1 e)), !in_range_hit.
  rewrite (hit_in_range t1 e), (hit_in_range t2 e).
  destruct (Tower.in_range t1 e), (Tower.in_range t2 e); try reflexivity.
  rewrite !take_damage_twice by assumption. f_equal. lia.
Qed.

End Tower_more.

Section Heap_folds_more.

Implicit Types (h : gmap loc Enemy.t) (l : loc) (ls : list loc) (f g : Enemy.t -> Enemy.t).

Lemma foldl_alter_dom f ls h : dom (foldl (fun h l => alter f l h) h ls) = dom h.
Proof.
  revert h. induction ls as [| l ls IH]; intros h; [reflexivity |].
  cbn [foldl]. rewrite IH. apply dom_alter_L.
Qed.

(** A property of an object that [f] keeps is kept by the whole fold. *)
Lemma foldl_alter_inv (P : Enemy.t -> Prop) f ls h l e :
  (forall e, P e -> P (f e)) ->
  h !! l = Some e -> P e ->
  exists e', foldl (fun h l => alter f l h) h ls !! l = Some e' /\ P e'.
Proof.
  intros Hf. revert h e. induction ls as [| l' ls IH]; intros h e Hl HP.
  - exists e. split; assumption.
  - cbn [foldl]. destruct (decide (l' = l)) as [-> | Hne].
    + apply (IH _ (f e)); [rewrite lookup_alter_eq, Hl; reflexivity | apply Hf, HP].
    + apply (IH _ e); [rewrite lookup_alter_ne by exact Hne; exact Hl | exact HP].
Qed.

(** When [f] fixes every listed object the fold changes nothing, and the
    loop meets the objects as they are. *)
Lemma foldl_alter_all_fixed f ls h :
  (forall l e, l ∈ ls -> h !! l = Some e -> f e = e) ->
  foldl (fun h l => alter f l h) h ls = h.
Proof.
  induction ls as [| l ls IH]; intros Hfix; [reflexivity |].
  cbn [foldl].
  assert (Hl : alter f l h = h).
  { destruct (h !! l) as [e |] eqn:Hl.
    - apply (alter_fix f h l e Hl), (Hfix l e); [apply list_elem_of_here | exact Hl].
    - apply alter_missing, Hl. }
  rewrite Hl. apply IH. intros l' e Hin. apply Hfix, list_elem_of_further, Hin.
Qed.

Lemma visits_all_fixed f ls h :
  (forall l e, l ∈ ls -> h !! l = Some e -> f e = e) ->
  visits f ls h = objects ls h.
Proof.
  induction ls as [| l ls IH]; intros Hfix; [reflexivity |].
  assert (IH' : visits f ls h = objects ls h)
    by (apply IH; intros l' e Hin; apply Hfix, list_elem_of_further, Hin).
  unfold objects in *. cbn [visits omap list_omap].
  destruct (h !! l) as [e |] eqn:Hl; [| exact IH'].
  rewrite (alter_fix f h l e Hl) by (apply (Hfix l e); [apply list_elem_of_here | exact Hl]).
  rewrite IH'. reflexivity.
Qed.

Lemma visits_app f ls1 ls2 h :
  visits f (ls1 ++ ls2) h =
  visits f ls1 h ++ visits f ls2 (foldl (fun h l => alter f l h) h ls1).
Proof.
  revert h. induction ls1 as [| l ls1 IH]; intros h; [reflexivity |].
  cbn [app visits foldl]. destruct (h !! l) as [e |] eqn:Hl.
  - rewrite IH. reflexivity.
  - rewrite IH, (alter_missing f h l Hl). reflexivity.
Qed.

(** Folds of commuting updates commute. *)
Lemma alter_foldl_commute f g l ls h :
  (forall e, f (g e) = g (f e)) ->
  alter f l (foldl (fun h l => alter g l h) h ls)
  = foldl (fun h l => alter g l h) (alter f l h) ls.
Proof.
  intros Hfg. revert h. induction ls as [| l' ls IH]; intros h; [reflexivity |].
  cbn [foldl]. rewrite IH. f_equal.
  destruct (decide (l = l')) as [<- | Hne].
  - rewrite !alter_alter_eq. apply alter_ext. intros e _. apply Hfg.
  - apply alter_alter_ne, Hne.
Qed.

Lemma foldl_alter_commute f g ls ks h :
  (forall e, f (g e) = g (f e)) ->
  foldl (fun h l => alter f l h) (foldl (fun h l => alter g l h) h ks) ls
  = foldl (fun h l => alter g l h) (foldl (fun h l => alter f l h) h ls) ks.
Proof.
  intros Hfg. revert h. induction ls as [| l ls IH]; intros h; [reflexivity |].
  cbn [foldl]. rewrite (alter_foldl_commute f g l ks h Hfg). apply IH.
Qed.

End Heap_folds_more.

(** X5. A tower with a negative range never attacks: no enemy is a target,
    and [attack] returns an empty list and leaves every enemy as it is. *)
Theorem negative_range_never_attacks (t : Tower.t) (ls : list loc) (h : gmap loc Enemy.t) :
  Tower.attack_range t < 0 ->
  (forall e, Tower.can_attack t e = false)
  /\ Tower.attack t ls h = ([], h, []).
Proof.
  intros Hneg.
  assert (Hnever : forall e, Tower.can_attack t e = false).
  { intros e. unfold Tower.can_attack, Tower.in_range.
    destruct (Enemy.is_alive e); [| reflexivity].
    destruct (Z.leb_spec 0 (Tower.attack_range t)); [lia | reflexivity]. }
  split; [exact Hnever |]. apply attack_no_target. intros l e _ _. apply Hnever.
Qed.

Lemma negative_range_never_attacks_witness :
  Tower.attack (Tower.Build "T" 0 0 5 (-1)) [0%nat] {[ 0%nat := Enemy.init "E" 0 0 1 0 10 ]}
  = ([], {[ 0%nat := Enemy.init "E" 0 0 1 0 10 ]}, []).
Proof.
  apply (negative_range_never_attacks (Tower.Build "T" 0 0 5 (-1))). simpl. lia.
Defined.

(** X6. A tower with range 0 can attack an enemy exactly when the enemy is
    alive and stands on the tower's own coordinates. *)
Theorem zero_range_same_position (t : Tower.t) (e : Enemy.t) :
  Tower.attack_range t = 0 ->
  (Tower.can_attack t e = true <->
   Enemy.is_alive e = true /\ Enemy.x e = Tower.x t /\ Enemy.y e = Tower.y t).
Proof.
  intros Hzero. unfold Tower.can_attack, Tower.in_range, Tower.distance_sq.
  rewrite Hzero. destruct (Enemy.is_alive e); [| intuition discriminate].
  rewrite andb_true_iff, !Z.leb_le. split.
  - intros [_ Hle]. split; [reflexivity |]. split; nia.
  - intros (_ & -> & ->). split; [lia |]. rewrite !Z.sub_diag. reflexivity.
Qed.

Lemma zero_range_same_position_witness :
  Tower.can_attack (Tower.Build "T" 3 4 1 0) (Enemy.init "E" 3 4 1 0 10) = true
  /\ Tower.can_attack (Tower.Build "T" 3 4 1 0) (Enemy.init "E" 3 5 1 0 10) <> true.
Proof.
  split.
  - apply (zero_range_same_position (Tower.Build "T" 3 4 1 0)); [reflexivity |].
    repeat split.
  - intros Hc.
    apply (zero_range_same_position (Tower.Build "T" 3 4 1 0)) in Hc as (_ & _ & Hy);
      [discriminate Hy | reflexivity].
Defined.

(** X7. A longer range reaches at least as far: an enemy that a tower can
    attack can be attacked by any tower at the same place with a range at
    least as long. *)
Theorem can_attack_range_monotone (t t' : Tower.t) (e : Enemy.t) :
  Tower.x t' = Tower.x t -> Tower.y t' = Tower.y t ->
  Tower.attack_range t <= Tower.attack_range t' ->
  Tower.can_attack t e = true -> Tower.can_attack t' e = true.
Proof.
  unfold Tower.can_attack, Tower.in_range, Tower.distance_sq.
  intros -> -> Hle. destruct (Enemy.is_alive e); [| discriminate].
  rewrite !andb_true_iff, !Z.leb_le. intros [Hr Hd]. split; nia.
Qed.

Lemma can_attack_range_monotone_witness :
  Tower.can_attack (Tower.Build "A1" 1 1 2 4) (Enemy.init "E2" (-2) 2 3 1 10) = true.
Proof.
  apply (can_attack_range_monotone (Tower.Build "T" 1 1 1 4) (Tower.Build "A1" 1 1 2 4));
    [reflexivity | reflexivity | simpl; lia | reflexivity].
Defined.

(** X8. Attacking a list made of two parts is attacking the first part and
    then the second on the heap the first attack left; the names returned
    are those of the first attack followed by those of the second. *)
Theorem attack_app (t : Tower.t) (ls1 ls2 : list loc) (h : gmap loc Enemy.t) :
  Tower.attack t (ls1 ++ ls2) h =
  (value_of (Tower.attack t ls1 h)
     ++ value_of (Tower.attack t ls2 (heap_of (Tower.attack t ls1 h))),
   heap_of (Tower.attack t ls2 (heap_of (Tower.attack t ls1 h))),
   []).
Proof.
  rewrite !attack_visits. unfold value_of, heap_of, volley. cbn [fst snd].
  rewrite visits_app, filter_app, fmap_app, foldl_app. reflexivity.
Qed.

(** X9. [attack] neither adds nor removes an object, leaves the objects
    that are not in its list untouched, and changes no name, position or
    velocity. *)
Theorem attack_frame (t : Tower.t) (ls : list loc) (h : gmap loc Enemy.t) :
  dom (heap_of (Tower.attack t ls h)) = dom h
  /\ (forall l, l ∉ ls -> heap_of (Tower.attack t ls h) !! l = h !! l)
  /\ (forall l e, h !! l = Some e ->
      exists e', heap_of (Tower.attack t ls h) !! l = Some e'
                 /\ Enemy.name e' = Enemy.name e
                 /\ (Enemy.x e', Enemy.y e') = (Enemy.x e, Enemy.y e)
                 /\ (Enemy.dx e', Enemy.dy e') = (Enemy.dx e, Enemy.dy e)).
Proof.
  rewrite attack_visits. unfold heap_of, volley. cbn [fst snd].
  split; [apply foldl_alter_dom | split].
  - intros l Hnotin. apply foldl_alter_notin, Hnotin.
  - intros l e Hl.
    apply (foldl_alter_inv
             (fun e' => Enemy.name e' = Enemy.name e
                        /\ (Enemy.x e', Enemy.y e') = (Enemy.x e, Enemy.y e)
                        /\ (Enemy.dx e', Enemy.dy e') = (Enemy.dx e, Enemy.dy e))
             (hit t) ls h l e); [| exact Hl | auto].
    intros e0 (Hn & Hp & Hv).
    destruct (hit_fields t e0) as (-> & -> & -> & -> & ->). auto.
Qed.

Lemma attack_frame_witness :
  exists e', heap_of (Tower.attack (Tower.Build "T" 1 0 5 2) [0%nat]
                        {[ 0%nat := Enemy.init "E1" 1 0 1 0 10 ]}) !! 0%nat = Some e'
             /\ Enemy.name e' = "E1"%string
             /\ (Enemy.x e', Enemy.y e') = (1, 0)
             /\ (Enemy.dx e', Enemy.dy e') = (1, 0).
Proof.
  destruct (attack_frame (Tower.Build "T" 1 0 5 2) [0%nat]
              {[ 0%nat := Enemy.init "E1" 1 0 1 0 10 ]}) as (_ & _ & Hobj).
  apply (Hobj 0%nat (Enemy.init "E1" 1 0 1 0 10)). reflexivity.
Defined.

(** * Further properties of the turn engine *)

Section Turn_more.

Implicit Types (h : gmap loc Enemy.t) (l : loc) (ls : list loc) (ts : list Tower.t)
  (e : Enemy.t) (self : Game.t).

Lemma barrage_cons t ts ls h : barrage (t :: ts) ls h = barrage ts ls (volley t ls h).
Proof. reflexivity. Qed.

Lemma barrage_lookup_in ts ls h l :
  NoDup ls -> l ∈ ls ->
  barrage ts ls h !! l = (fun e => foldl (fun e t => hit t e) e ts) <$> h !! l.
Proof.
  intros Hnd Hin. revert h. induction ts as [| t ts IH]; intros h.
  - cbn. destruct (h !! l); reflexivity.
  - rewrite barrage_cons, IH. unfold volley. rewrite (foldl_alter_in _ _ _ _ Hnd Hin).
    destruct (h !! l); reflexivity.
Qed.

Lemma barrage_lookup_notin ts ls h l : l ∉ ls -> barrage ts ls h !! l = h !! l.
Proof.
  intros Hnotin. revert h. induction ts as [| t ts IH]; intros h; [reflexivity |].
  rewrite barrage_cons, IH. apply foldl_alter_notin, Hnotin.
Qed.

Lemma barrage_dom ts ls h : dom (barrage ts ls h) = dom h.
Proof.
  revert h. induction ts as [| t ts IH]; intros h; [reflexivity |].
  rewrite barrage_cons, IH. apply foldl_alter_dom.
Qed.

(** Without aliasing, a turn does to each listed enemy what [turn_object]
    says, whatever the other enemies are. *)
Lemma turn_heap_lookup_in self h l :
  NoDup (Game.enemies self) -> l ∈ Game.enemies self ->
  turn_heap self h !! l = turn_object (Game.towers self) <$> h !! l.
Proof.
  intros Hnd Hin. unfold turn_heap, moved.
  rewrite (barrage_lookup_in _ _ _ _ Hnd Hin), (foldl_alter_in _ _ _ _ Hnd Hin).
  destruct (h !! l); reflexivity.
Qed.

Lemma turn_heap_lookup_notin self h l :
  l ∉ Game.enemies self -> turn_heap self h !! l = h !! l.
Proof.
  intros Hnotin. unfold turn_heap, moved.
  rewrite (barrage_lookup_notin _ _ _ _ Hnotin). apply foldl_alter_notin, Hnotin.
Qed.

Lemma turn_heap_dom self h : dom (turn_heap self h) = dom h.
Proof. unfold turn_heap, moved. rewrite barrage_dom. apply foldl_alter_dom. Qed.


Lemma iter_turn_heap_lookup_notin n self h l :
  l ∉ Game.enemies self -> Nat.iter n (turn_heap self) h !! l = h !! l.
Proof.
  intros Hnotin. induction n as [| n IH]; [reflexivity |].
  change (Nat.iter (S n) (turn_heap self) h) with (turn_heap self (Nat.iter n (turn_heap self) h)).
  rewrite (turn_heap_lookup_notin _ _ _ Hnotin). exact IH.
Qed.

Lemma iter_turn_heap_dom n self h : dom (Nat.iter n (turn_heap self) h) = dom h.
Proof.
  induction n as [| n IH]; [reflexivity |].
  change (Nat.iter (S n) (turn_heap self) h) with (turn_heap self (Nat.iter n (turn_heap self) h)).
  rewrite turn_heap_dom. exact IH.
Qed.

(** The hits of a volley change neither name, position nor velocity. *)
Lemma foldl_hit_fields ts e :
  Enemy.name (foldl (fun e t => hit t e) e ts) = Enemy.name e
  /\ Enemy.x (foldl (fun e t => hit t e) e ts) = Enemy.x e
  /\ Enemy.y (foldl (fun e t => hit t e) e ts) = Enemy.y e
  /\ Enemy.dx (foldl (fun e t => hit t e) e ts) = Enemy.dx e
  /\ Enemy.dy (foldl (fun e t => hit t e) e ts) = Enemy.dy e.
Proof.
  revert e. induction ts as [| t ts IH]; intros e; [cbn; auto |].
  cbn [foldl]. destruct (IH (hit t e)) as (-> & -> & -> & -> & ->).
  apply hit_fields.
Qed.

Lemma hit_life_lower (t : Tower.t) e :
  0 <= Tower.attack_power t ->
  Enemy.life e - Tower.attack_power t <= Enemy.life (hit t e).
Proof.
  intros Hp. unfold hit, Enemy.take_damage.
  destruct (Tower.can_attack t e); [| lia].
  destruct (Enemy.alive e); [| lia]. cbn zeta.
  destruct (Z.leb_spec (Enemy.life e - Tower.attack_power t) 0); simpl; lia.
Qed.

Lemma foldl_hit_life_lower ts e :
  Forall (fun t => 0 <= Tower.attack_power t) ts ->
  Enemy.life e - total_power ts <= Enemy.life (foldl (fun e t => hit t e) e ts).
Proof.
  intros Hpow. revert e. induction Hpow as [| t ts Hp _ IH]; intros e; [cbn; lia |].
  cbn [foldl total_power foldr]. fold (total_power ts).
  pose proof (IH (hit t e)). pose proof (hit_life_lower t e Hp). lia.
Qed.

(** Volleys of towers with non-negative powers commute. *)
Lemma volley_commute (t1 t2 : Tower.t) ls h :
  0 <= Tower.attack_power t1 -> 0 <= Tower.attack_power t2 ->
  volley t1 ls (volley t2 ls h) = volley t2 ls (volley t1 ls h).
Proof.
  intros Hp1 Hp2. unfold volley. apply foldl_alter_commute.
  intros e. apply hit_commute; assumption.
Qed.

Lemma barrage_Permutation ts ts' ls h :
  Forall (fun t => 0 <= Tower.attack_power t) ts ->
  ts ≡ₚ ts' ->
  barrage ts ls h = barrage ts' ls h.
Proof.
  intros Hpow Hperm. revert h Hpow.
  induction Hperm as [| t ts ts' _ IH | t1 t2 ts | ts ts' ts'' Hperm1 IH1 _ IH2];
    intros h Hpow.
  - reflexivity.
  - rewrite !barrage_cons. apply IH. apply Forall_cons in Hpow as [_ Hpow]. exact Hpow.
  - rewrite !barrage_cons. f_equal.
    apply Forall_cons in Hpow as [Hp2 Hpow]. apply Forall_cons in Hpow as [Hp1 _].
    apply volley_commute; assumption.
  - rewrite IH1 by exact Hpow. apply IH2. rewrite <- Hperm1. exact Hpow.
Qed.

Lemma iter_ext {A} (f g : A -> A) (n : nat) (a : A) :
  (forall a, f a = g a) -> Nat.iter n f a = Nat.iter n g a.
Proof.
  intros Hfg. induction n as [| n IH]; [reflexivity |].
  cbn [Nat.iter nat_rect]. rewrite Hfg. f_equal. exact IH.
Qed.

(** The calls of a game change neither name nor velocity. *)
Lemma history_identity ts e e' :
  rtc (step ts) e e' ->
  Enemy.name e' = Enemy.name e /\ Enemy.dx e' = Enemy.dx e /\ Enemy.dy e' = Enemy.dy e.
Proof.
  induction 1 as [e | e e1 e' Hstep _ (-> & -> & ->)]; [auto |].
  destruct Hstep as [e | t e _].
  - destruct (move_fields e) as (-> & -> & -> & _). auto.
  - destruct (hit_fields t e) as (-> & _ & _ & -> & ->). auto.
Qed.

End Turn_more.

Section Game_more.

Implicit Types (h : gmap loc Enemy.t) (l : loc) (ls : list loc) (ts : list Tower.t)
  (e : Enemy.t) (self : Game.t).

Lemma turn_heap_ext self self' h :
  Game.enemies self' = Game.enemies self -> Game.towers self' = Game.towers self ->
  turn_heap self' h = turn_heap self h.
Proof. intros He Ht. unfold turn_heap. rewrite He, Ht. reflexivity. Qed.

(** State and heap at the end of [run_game]. *)
Lemma run_game_state self h :
  value_of (Game.run_game self h) = Nat.iter (Z.to_nat (Game.max_turns self)) next_turn self
  /\ heap_of (Game.run_game self h)
     = Nat.iter (Z.to_nat (Game.max_turns self)) (turn_heap self) h.
Proof. rewrite run_game_spec, run_turns_spec. split; reflexivity. Qed.

Lemma barrage_all_dead ts ls h :
  (forall l e, l ∈ ls -> h !! l = Some e -> Enemy.alive e = false) ->
  barrage ts ls h = h.
Proof.
  intros Hdead. induction ts as [| t ts IH]; [reflexivity |].
  rewrite barrage_cons. unfold volley.
  rewrite (foldl_alter_all_fixed (hit t) ls h); [exact IH |].
  intros l e Hin Hl. apply hit_dead, (Hdead l e Hin Hl).
Qed.

Lemma attack_lines_all_dead ts ls h :
  (forall l e, l ∈ ls -> h !! l = Some e -> Enemy.alive e = false) ->
  attack_lines ts ls h = (fun t => L_no_target (Tower.name t)) <$> ts.
Proof.
  intros Hdead. unfold attack_lines. apply list_eq. intros j.
  rewrite list_lookup_imap, list_lookup_fmap.
  destruct (ts !! j) as [t |]; [| reflexivity]. cbn [fmap option_fmap option_map].
  rewrite (barrage_all_dead _ _ _ Hdead).
  rewrite (attack_no_target t ls h); [reflexivity |].
  intros l e Hin Hl. apply can_attack_dead, (Hdead l e Hin Hl).
Qed.

Lemma objects_elem ls h e : e ∈ objects ls h -> exists l, l ∈ ls /\ h !! l = Some e.
Proof. unfold objects. apply list_elem_of_omap. Qed.

End Game_more.

(** X10. When no enemy is listed twice, a turn does to each listed enemy
    what it would do if the enemy were alone: [move], then the hit of each
    tower in the order of the list, each decided on the enemy as the
    towers before left it. *)
Theorem run_turn_per_enemy (self : Game.t) (h : gmap loc Enemy.t) (l : loc) :
  NoDup (Game.enemies self) -> l ∈ Game.enemies self ->
  heap_of (Game.run_turn self h) !! l = turn_object (Game.towers self) <$> h !! l.
Proof.
  intros Hnd Hin. rewrite run_turn_spec. apply turn_heap_lookup_in; assumption.
Qed.

Lemma run_turn_per_enemy_witness :
  heap_of (Game.run_turn (value_of duel) (heap_of duel)) !! 1%nat
  = Some (Enemy.Build "E2" 1 1 1 0 8 true).
Proof.
  etrans; [apply (run_turn_per_enemy (value_of duel) (heap_of duel) 1%nat) |].
  - vm_compute. repeat constructor; rewrite ?list_elem_of_singleton; intros Hin;
      solve [discriminate | inversion Hin].
  - vm_compute. repeat constructor.
  - vm_compute. reflexivity.
Defined.

(** X11. Neither a turn nor a whole game adds or removes an object of the
    heap or touches an object that is not in the game's list, and the
    game keeps its list of enemies, its towers and its limit of turns. *)
Theorem run_game_frame (self : Game.t) (h : gmap loc Enemy.t) :
  (dom (heap_of (Game.run_turn self h)) = dom h
   /\ (forall l, l ∉ Game.enemies self -> heap_of (Game.run_turn self h) !! l = h !! l)
   /\ Game.enemies (value_of (Game.run_turn self h)) = Game.enemies self
   /\ Game.towers (value_of (Game.run_turn self h)) = Game.towers self
   /\ Game.max_turns (value_of (Game.run_turn self h)) = Game.max_turns self)
  /\ (dom (heap_of (Game.run_game self h)) = dom h
      /\ (forall l, l ∉ Game.enemies self -> heap_of (Game.run_game self h) !! l = h !! l)
      /\ Game.enemies (value_of (Game.run_game self h)) = Game.enemies self
      /\ Game.towers (value_of (Game.run_game self h)) = Game.towers self
      /\ Game.max_turns (value_of (Game.run_game self h)) = Game.max_turns self).
Proof.
  split.
  - rewrite run_turn_spec. unfold value_of, heap_of. cbn [fst snd].
    split; [apply turn_heap_dom | split; [apply turn_heap_lookup_notin |]].
    repeat split.
  - destruct (run_game_state self h) as [-> ->].
    destruct (iter_next_turn (Z.to_nat (Game.max_turns self)) self) as (_ & -> & -> & ->).
    split; [apply iter_turn_heap_dom | split; [apply iter_turn_heap_lookup_notin |]].
    repeat split.
Qed.

Lemma run_game_frame_witness :
  heap_of (Game.run_game (Game.Build 0 3 [0%nat] [Tower.Build "T1" 1 0 5 2])
             {[ 0%nat := Enemy.init "E1" 0 0 1 0 10; 7%nat := Enemy.init "E9" 1 0 1 0 10 ]})
    !! 7%nat = Some (Enemy.init "E9" 1 0 1 0 10).
Proof.
  destruct (run_game_frame (Game.Build 0 3 [0%nat] [Tower.Build "T1" 1 0 5 2])
              {[ 0%nat := Enemy.init "E1" 0 0 1 0 10; 7%nat := Enemy.init "E9" 1 0 1 0 10 ]})
    as (_ & _ & Hframe & _).
  rewrite Hframe; [reflexivity |].
  cbn. rewrite list_elem_of_singleton. discriminate.
Defined.

(** X12. When no enemy is listed twice, a turn takes a listed enemy that is
    alive at its start exactly one velocity further and leaves a dead one
    where it is, whatever the towers do; name and velocity stay. *)
Theorem run_turn_position (self : Game.t) (h : gmap loc Enemy.t) (l : loc) (e : Enemy.t) :
  NoDup (Game.enemies self) -> l ∈ Game.enemies self -> h !! l = Some e ->
  exists e', heap_of (Game.run_turn self h) !! l = Some e'
    /\ (Enemy.x e', Enemy.y e') =
         (if Enemy.is_alive e then (Enemy.x e + Enemy.dx e, Enemy.y e + Enemy.dy e)
          else (Enemy.x e, Enemy.y e))
    /\ Enemy.name e' = Enemy.name e
    /\ (Enemy.dx e', Enemy.dy e') = (Enemy.dx e, Enemy.dy e).
Proof.
  intros Hnd Hin Hl. exists (turn_object (Game.towers self) e).
  rewrite run_turn_spec. unfold heap_of. cbn [fst snd].
  rewrite (turn_heap_lookup_in _ _ _ Hnd Hin), Hl. split; [reflexivity |].
  unfold turn_object.
  destruct (foldl_hit_fields (Game.towers self) (Enemy.move e)) as (-> & -> & -> & -> & ->).
  destruct (move_fields e) as (-> & -> & -> & _).
  unfold Enemy.move, Enemy.is_alive. destruct (Enemy.alive e); auto.
Qed.

Lemma run_turn_position_witness :
  exists e', heap_of (Game.run_turn (value_of duel) (heap_of duel)) !! 0%nat = Some e'
    /\ (Enemy.x e', Enemy.y e') = (1, 0)
    /\ Enemy.name e' = "E1"%string
    /\ (Enemy.dx e', Enemy.dy e') = (1, 0).
Proof.
  apply (run_turn_position (value_of duel) (heap_of duel) 0%nat (Enemy.init "E1" 0 0 1 0 5)).
  - vm_compute. repeat constructor; rewrite ?list_elem_of_singleton; intros Hin;
      solve [discriminate | inversion Hin].
  - vm_compute. repeat constructor.
  - vm_compute. reflexivity.
Defined.

(** X13. When no enemy is listed twice and no attack power is negative, a
    listed enemy loses in one turn at most the sum of the attack powers of
    the towers. *)
Theorem run_turn_damage_bound (self : Game.t) (h : gmap loc Enemy.t) (l : loc) (e : Enemy.t) :
  NoDup (Game.enemies self) -> l ∈ Game.enemies self -> h !! l = Some e ->
  Forall (fun t => 0 <= Tower.attack_power t) (Game.towers self) ->
  exists e', heap_of (Game.run_turn self h) !! l = Some e'
    /\ Enemy.life e - total_power (Game.towers self) <= Enemy.life e'.
Proof.
  intros Hnd Hin Hl Hpow. exists (turn_object (Game.towers self) e).
  rewrite run_turn_spec. unfold heap_of. cbn [fst snd].
  rewrite (turn_heap_lookup_in _ _ _ Hnd Hin), Hl. split; [reflexivity |].
  unfold turn_object.
  pose proof (foldl_hit_life_lower (Game.towers self) (Enemy.move e) Hpow) as Hlow.
  destruct (move_fields e) as (_ & _ & _ & Hlife & _). rewrite Hlife in Hlow. exact Hlow.
Qed.

Lemma run_turn_damage_bound_witness :
  exists e', heap_of (Game.run_turn (value_of duel) (heap_of duel)) !! 1%nat = Some e'
    /\ 20 - 12 <= Enemy.life e'.
Proof.
  apply (run_turn_damage_bound (value_of duel) (heap_of duel) 1%nat
           (Enemy.init "E2" 0 1 1 0 20)).
  - vm_compute. repeat constructor; rewrite ?list_elem_of_singleton; intros Hin;
      solve [discriminate | inversion Hin].
  - vm_compute. repeat constructor.
  - vm_compute. reflexivity.
  - vm_compute. repeat constructor; discriminate.
Defined.

(** X14. With no negative attack power, the enemies end a turn in the same
    state in whatever order the towers are listed. *)
Theorem tower_order_irrelevant (g1 g2 : Game.t) (h : gmap loc Enemy.t) :
  Game.enemies g1 = Game.enemies g2 ->
  Game.towers g1 ≡ₚ Game.towers g2 ->
  Forall (fun t => 0 <= Tower.attack_power t) (Game.towers g1) ->
  heap_of (Game.run_turn g1 h) = heap_of (Game.run_turn g2 h).
Proof.
  intros He Hperm Hpow. rewrite !run_turn_spec. unfold heap_of, turn_heap. cbn [fst snd].
  rewrite He. apply barrage_Permutation; assumption.
Qed.

Lemma tower_order_irrelevant_witness :
  heap_of (Game.run_turn (value_of duel) (heap_of duel))
  = heap_of (Game.run_turn
               (Game.Build 0 3 (Game.enemies (value_of duel))
                  [Tower.Build "T2" 1 1 6 2; Tower.Build "T1" 1 0 6 2])
               (heap_of duel)).
Proof.
  apply tower_order_irrelevant.
  - reflexivity.
  - apply perm_swap.
  - vm_compute. repeat constructor; discriminate.
Defined.

(** X15. [run_game] does not reset anything: called a second time on the
    game it returned, it plays [max_turns] further turns from the counter
    and the heap the first call left. *)
Theorem run_game_twice (self : Game.t) (h : gmap loc Enemy.t) :
  0 <= Game.max_turns self ->
  let r1 := Game.run_game self h in
  let r2 := Game.run_game (value_of r1) (heap_of r1) in
  heap_of r2
    = heap_of (run_turns (Z.to_nat (Game.max_turns self) + Z.to_nat (Game.max_turns self))
                 self h)
  /\ Game.current_turn (value_of r2) = Game.current_turn self + 2 * Game.max_turns self.
Proof.
  intros Hmax. cbn zeta.
  set (n := Z.to_nat (Game.max_turns self)).
  destruct (run_game_state self h) as [Hv1 Hh1]. fold n in Hv1, Hh1.
  destruct (iter_next_turn n self) as (Hc & Hm & He & Ht).
  destruct (run_game_state (value_of (Game.run_game self h)) (heap_of (Game.run_game self h)))
    as [Hv2 Hh2].
  rewrite Hv1, Hh1, Hm in Hv2, Hh2. fold n in Hv2, Hh2.
  rewrite Hv1, Hh1. split.
  - rewrite Hh2, run_turns_spec. unfold heap_of. cbn [fst snd].
    rewrite Nat.iter_add. apply iter_ext. intros h'. apply turn_heap_ext; assumption.
  - rewrite Hv2. destruct (iter_next_turn n (Nat.iter n next_turn self)) as (-> & _).
    rewrite Hc. unfold n. lia.
Qed.

Lemma run_game_twice_witness :
  Game.current_turn
    (value_of (Game.run_game (value_of (Game.run_game (value_of walk) (heap_of walk)))
                 (heap_of (Game.run_game (value_of walk) (heap_of walk)))))
  = 0 + 2 * 2.
Proof.
  apply (run_game_twice (value_of walk) (heap_of walk)). vm_compute. discriminate.
Defined.

(** X16. With [max_turns] zero or negative [run_game] plays no turn: the
    game and the heap are unchanged, and the output is the initial listing
    followed at once by the final results, both showing the enemies as
    they were. *)
Theorem run_game_no_turns (self : Game.t) (h : gmap loc Enemy.t) :
  Game.max_turns self <= 0 ->
  Game.run_game self h =
  (self, h,
   [L_start; L_initial] ++ (enemy_line <$> objects (Game.enemies self) h)
   ++ [L_rule_top; L_results; L_rule]
   ++ (result_line <$> objects (Game.enemies self) h)).
Proof.
  intros Hmax. rewrite run_game_spec.
  replace (Z.to_nat (Game.max_turns self)) with 0%nat by lia. reflexivity.
Qed.

Lemma run_game_no_turns_witness :
  Game.run_game (Game.Build 0 (-2) [0%nat] [Tower.Build "T1" 1 0 5 2])
    {[ 0%nat := Enemy.init "E1" 0 0 1 0 10 ]}
  = (Game.Build 0 (-2) [0%nat] [Tower.Build "T1" 1 0 5 2],
     {[ 0%nat := Enemy.init "E1" 0 0 1 0 10 ]},
     [L_start; L_initial; L_enemy "E1" 0 0 10;
      L_rule_top; L_results; L_rule; L_result "E1" 0 0 10 true]).
Proof.
  apply (run_game_no_turns (Game.Build 0 (-2) [0%nat] [Tower.Build "T1" 1 0 5 2])).
  simpl. lia.
Defined.



(** X18. When every listed enemy is dead (or the list is empty) a turn
    changes no object: it only advances the counter and prints, for each
    enemy that it does not move, for each tower that it has no target, and
    the unchanged status. *)
Theorem run_turn_all_dead (self : Game.t) (h : gmap loc Enemy.t) :
  (forall l e, l ∈ Game.enemies self -> h !! l = Some e -> Enemy.alive e = false) ->
  Game.run_turn self h =
  (next_turn self, h,
   L_turn (Game.current_turn self + 1) ::
   (L_move_phase :: ((fun e => L_not_moved (Enemy.name e)) <$> objects (Game.enemies self) h))
   ++ (L_attack_phase :: ((fun t => L_no_target (Tower.name t)) <$> Game.towers self))
   ++ (L_status_phase :: (status_line <$> objects (Game.enemies self) h))).
Proof.
  intros Hdead. rewrite run_turn_spec.
  assert (Hmoved : moved (Game.enemies self) h = h).
  { apply foldl_alter_all_fixed. intros l e Hin Hl. apply move_dead, (Hdead l e Hin Hl). }
  unfold turn_lines, turn_heap. rewrite Hmoved, (barrage_all_dead _ _ _ Hdead).
  rewrite (attack_lines_all_dead _ _ _ Hdead).
  rewrite (visits_all_fixed Enemy.move)
    by (intros l e Hin Hl; apply move_dead, (Hdead l e Hin Hl)).
  do 4 f_equal. apply list_fmap_ext. intros i e Hi.
  apply list_elem_of_lookup_2, objects_elem in Hi as (l & Hin & Hl).
  unfold move_line, Enemy.is_alive. rewrite (Hdead l e Hin Hl). reflexivity.
Qed.

Lemma run_turn_all_dead_witness :
  Game.run_turn (value_of graveyard) (heap_of graveyard)
  = (next_turn (value_of graveyard), heap_of graveyard,
     [L_turn 1; L_move_phase; L_not_moved "E1"; L_attack_phase; L_no_target "T1";
      L_status_phase; L_status "E1" 0 0 0 false]).
Proof.
  etrans; [apply (run_turn_all_dead (value_of graveyard) (heap_of graveyard)) |].
  - intros l e Hin Hl. vm_compute in Hin. apply list_elem_of_singleton in Hin as ->.
    vm_compute in Hl. injection Hl as <-. reflexivity.
  - vm_compute. reflexivity.
Defined.

(** X19. Through any number of turns every object of the heap keeps its
    name and its velocity, and the heap keeps the same objects. *)
Theorem identity_preserved (self : Game.t) (h : gmap loc Enemy.t) (n : nat) :
  dom (heap_of (run_turns n self h)) = dom h
  /\ forall l e, h !! l = Some e ->
     exists e', heap_of (run_turns n self h) !! l = Some e'
       /\ Enemy.name e' = Enemy.name e
       /\ (Enemy.dx e', Enemy.dy e') = (Enemy.dx e, Enemy.dy e).
Proof.
  split.
  - rewrite run_turns_spec. apply iter_turn_heap_dom.
  - intros l e Hl. destruct (run_turns_history n self h l e Hl) as (e' & He' & Hrtc).
    exists e'. destruct (history_identity _ _ _ Hrtc) as (-> & -> & ->). auto.
Qed.

Lemma identity_preserved_witness :
  exists e', heap_of (run_turns 10 (value_of walk) (heap_of walk)) !! 0%nat = Some e'
    /\ Enemy.name e' = "E1"%string
    /\ (Enemy.dx e', Enemy.dy e') = (1, 0).
Proof.
  destruct (identity_preserved (value_of walk) (heap_of walk) 10) as [_ Hobj].
  apply (Hobj 0%nat (Enemy.init "E1" 0 0 1 0 10)). vm_compute. reflexivity.
Defined.

(** X20. [print_results] reads only: it changes no object, and after its
    three header lines it prints one line for each listed enemy, in the
    order of the list, with the enemy's present position, life and
    status. *)
Theorem print_results_read_only (self : Game.t) (h : gmap loc Enemy.t) :
  Game.print_results self h =
  (tt, h,
   [L_rule_top; L_results; L_rule] ++ (result_line <$> objects (Game.enemies self) h)).
Proof. apply print_results_spec. Qed.
